(** * VIBE-TASK-ENGINE: the incentive engine (src/lib/IncentiveEngine.ts)

    A shallow embedding of the [IncentiveEngine] class and of the records of
    [types.ts] it works on, followed by the properties of the engine.

    Numbers.  Every TypeScript [number] is an IEEE 754 binary64 value.  The
    fields that hold integers (levels, XP amounts, counters, epoch
    milliseconds) are embedded in [Z], and their additions, subtractions and
    comparisons are written as those of [Z].  This is what binary64
    computes on the safe integers, those below 2^53 in magnitude, as long
    as the result is safe too (section "Safe integers in binary64", and
    for the whole call section "The sums of the source"); beyond them it
    is not, and a statement about a sum of the source carries the range.  Every product with a fractional literal of
    the source ([0.1], [0.5], [1.5], [1.0]) is computed in binary64 itself,
    with the kernel's primitive floats, because [0.1] is not a binary
    fraction and the rounding is observable through [Math.floor]. *)

From Stdlib Require Import ZArith Lia Floats.
From Stdlib Require Uint63.
From stdpp Require Import base list strings gmap pretty.

Set Warnings "-inexact-float".
Local Open Scope Z_scope.

(** * Embedding *)

(** ** Numbers *)

Module Num.

(** The binary64 value of an integer (round to nearest, ties to even). *)
Definition of_Z (z : Z) : float :=
  SF2Prim (binary_normalize prec emax z 0 false).

(** [Math.floor], read back as an integer.  A finite binary64 value is
    [(-1)^s * m * 2^e]; [Z]'s division rounds towards minus infinity.  On
    NaN and the infinities [Math.floor] gives no integer; they lie outside
    the range described in the header, and the embedding puts 0 there. *)
Definition floor (f : float) : Z :=
  match Prim2SF f with
  | S754_finite s m e =>
      let n := if s then Z.neg m else Z.pos m in
      if 0 <=? e then n * 2 ^ e else n / 2 ^ (- e)
  | _ => 0
  end.

(** Not a negative finite number: zeros, infinities and NaN included. *)
Definition sf_nonneg (x : spec_float) : Prop :=
  match x with
  | S754_finite true _ _ => False
  | _ => True
  end.

Definition nonneg (f : float) : Prop := sf_nonneg (Prim2SF f).

(** [x + y] and [x - y] of the source on integer values: the binary64
    operation, read back as an integer. *)
Definition add (x y : Z) : Z := floor (of_Z x + of_Z y).
Definition sub (x y : Z) : Z := floor (of_Z x - of_Z y).

(** The safe integers of JavaScript: [Number.MIN_SAFE_INTEGER] to
    [Number.MAX_SAFE_INTEGER]. *)
Definition safe (x : Z) : Prop := - 2 ^ 53 < x < 2 ^ 53.

(** [m * 2^k] on mantissas. *)
Definition shl (m : positive) (k : Z) : positive :=
  match k with
  | Z.pos p => Pos.iter xO m p
  | _ => m
  end.

(** The binary64 representation of a safe integer: 53 binary digits. *)
Definition canon (z : Z) : spec_float :=
  match z with
  | Z0 => S754_zero false
  | Z.pos n => S754_finite false (shl n (53 - Z.pos (digits2_pos n)))
                 (Z.pos (digits2_pos n) - 53)
  | Z.neg n => S754_finite true (shl n (53 - Z.pos (digits2_pos n)))
                 (Z.pos (digits2_pos n) - 53)
  end.
End Num.

(** ** Data model (types.ts) *)

(** [difficulty: 'S' | 'A' | 'B' | 'C'] *)
Inductive Difficulty : Set := Rank_S | Rank_A | Rank_B | Rank_C.

#[global] Instance Difficulty_eq_dec : EqDecision Difficulty.
Proof. solve_decision. Defined.

Module GameTask.
Record t : Type := mk {
  id : string;
  originalText : string;
  questTitle : string;
  flavorText : string;
  difficulty : Difficulty;
  xp : Z;
  completed : bool
}.

(** [{ ...t, completed: true }] *)
Definition complete (x : t) : t :=
  {| id := id x; originalText := originalText x; questTitle := questTitle x;
     flavorText := flavorText x; difficulty := difficulty x; xp := xp x;
     completed := true |}.
End GameTask.

Module Achievement.
Record t : Type := mk {
  id : string;
  icon : string;
  unlockedAt : option Z   (* [unlockedAt?: number] *)
}.
End Achievement.

Module Combo.
Record t : Type := mk {
  count : Z;
  multiplier : float;
  lastCompletionTime : Z
}.
End Combo.

Module GameState.
Record t : Type := mk {
  level : Z;
  currentXp : Z;
  totalXpNeeded : Z;
  completedTasks : Z;
  momentum : list float;
  combo : Combo.t;
  achievements : list Achievement.t
}.
End GameState.

(** The object [processTaskCompletion] returns when it does not return
    [null]. *)
Module CompletionResult.
Record t : Type := mk {
  newState : GameState.t;
  newTasks : list GameTask.t;
  leveledUp : bool;
  xpGained : Z;
  achievementsUnlocked : list Achievement.t;
  comboTriggered : bool
}.
End CompletionResult.

(** ** The engine (class IncentiveEngine) *)

Module IncentiveEngine.

Definition XP_MULTIPLIER : float := 1.5%float.
Definition MOMENTUM_HISTORY_LIMIT : nat := 20.
Definition COMBO_WINDOW_MS : Z := 30000.

Definition getNextLevelThreshold (currentThreshold : Z) : Z :=
  Num.floor (Num.of_Z currentThreshold * XP_MULTIPLIER)%float.

(** [history[history.length - 1]], or 0 for the empty history. *)
Definition lastValue (history : list float) : float :=
  match last history with
  | Some v => v
  | None => 0%float
  end.

(** [Array.prototype.shift]: removes the first element, if any. *)
Definition shift {A : Type} (l : list A) : list A := drop 1 l.

Definition calculateMomentum (history : list float) (xpGain : Z) : list float :=
  let newValue := (lastValue history + Num.of_Z xpGain * 0.5)%float in
  let newMomentum := history ++ [newValue] in
  if decide (MOMENTUM_HISTORY_LIMIT < length newMomentum)%nat
  then shift newMomentum
  else newMomentum.

(** [new Set(state.achievements.map(a => a.id))] *)
Definition currentIds (state : GameState.t) : gset string :=
  list_to_set (Achievement.id <$> GameState.achievements state).

(** [currentIds.has(x)] *)
Definition has (ids : gset string) (x : string) : bool :=
  bool_decide (x ∈ ids).

Definition FIRST_BLOOD (timestamp : Z) : Achievement.t :=
  Achievement.mk "FIRST_BLOOD" "⚔️" (Some timestamp).
Definition COMBO_MASTER (timestamp : Z) : Achievement.t :=
  Achievement.mk "COMBO_MASTER" "🔥" (Some timestamp).
Definition LEGENDARY (timestamp : Z) : Achievement.t :=
  Achievement.mk "LEGENDARY" "👑" (Some timestamp).
Definition VETERAN (timestamp : Z) : Achievement.t :=
  Achievement.mk "VETERAN" "🎖️" (Some timestamp).

(** [newUnlocks.push(a)] under a condition: the array grows at its end. *)
Definition pushIf (cond : bool) (a : Achievement.t)
    (newUnlocks : list Achievement.t) : list Achievement.t :=
  if cond then newUnlocks ++ [a] else newUnlocks.

Definition checkAchievements (state : GameState.t) (task : GameTask.t)
    (isFirstTask : bool) (timestamp : Z) : list Achievement.t :=
  let ids := currentIds state in
  let newUnlocks := [] in
  (* 1. FIRST BLOOD *)
  let newUnlocks :=
    pushIf (isFirstTask && negb (has ids "FIRST_BLOOD"))
           (FIRST_BLOOD timestamp) newUnlocks in
  (* 2. COMBO MASTER (3+ Combo) *)
  let newUnlocks :=
    pushIf ((3 <=? Combo.count (GameState.combo state))
              && negb (has ids "COMBO_MASTER"))
           (COMBO_MASTER timestamp) newUnlocks in
  (* 3. LEGENDARY (S Rank) *)
  let newUnlocks :=
    pushIf (bool_decide (GameTask.difficulty task = Rank_S)
              && negb (has ids "LEGENDARY"))
           (LEGENDARY timestamp) newUnlocks in
  (* 4. VETERAN (Level 3) *)
  let newUnlocks :=
    pushIf ((3 <=? GameState.level state) && negb (has ids "VETERAN"))
           (VETERAN timestamp) newUnlocks in
  newUnlocks.

(** [t.id === taskId] *)
Definition isTask (taskId : string) (t : GameTask.t) : bool :=
  String.eqb (GameTask.id t) taskId.

(** [t => t.id === taskId ? { ...t, completed: true } : t] *)
Definition markCompleted (taskId : string) (t : GameTask.t) : GameTask.t :=
  if isTask taskId t then GameTask.complete t else t.

(** [dateNow] is the reading of [Date.now()] at the call; it is consulted
    only when [timestampOverride] is absent ([??]).  The sums and
    differences of integers are written as those of [Z];
    [Binary64.processTaskCompletion] below has them as the source computes
    them, and gives the same result on safe integers (section "The sums of
    the source"). *)
Definition processTaskCompletion (dateNow : Z) (taskId : string)
    (currentTasks : list GameTask.t) (currentState : GameState.t)
    (timestampOverride : option Z) : option CompletionResult.t :=
  match find (isTask taskId) currentTasks with
  | None => None
  | Some task =>
    if GameTask.completed task then None else
    (* 1. Update Task List *)
    let newTasks := markCompleted taskId <$> currentTasks in
    let isFirstTask := GameState.completedTasks currentState =? 0 in
    (* 2. Combo Calculation *)
    let now := default dateNow timestampOverride in
    let oldCombo := GameState.combo currentState in
    let timeDiff := now - Combo.lastCompletionTime oldCombo in
    let chained :=
      (timeDiff <? COMBO_WINDOW_MS) && (0 <? Combo.lastCompletionTime oldCombo) in
    let comboCount := if chained then Combo.count oldCombo + 1 else 1 in
    let comboMultiplier :=
      if chained then (1.0 + Num.of_Z comboCount * 0.1)%float else 1.0%float in
    (* 3. XP Calculation *)
    let baseXp := GameTask.xp task in
    let finalXp := Num.floor (Num.of_Z baseXp * comboMultiplier)%float in
    (* 4. Level Calculation *)
    let newXp := GameState.currentXp currentState + finalXp in
    let overflow := GameState.totalXpNeeded currentState <=? newXp in
    let newXp' :=
      if overflow then newXp - GameState.totalXpNeeded currentState else newXp in
    let newLevel :=
      if overflow then GameState.level currentState + 1
      else GameState.level currentState in
    let newTotalNeeded :=
      if overflow then getNextLevelThreshold (GameState.totalXpNeeded currentState)
      else GameState.totalXpNeeded currentState in
    let leveledUp := overflow in
    (* 5. Momentum *)
    let newMomentum := calculateMomentum (GameState.momentum currentState) finalXp in
    (* 6. Intermediate State for Achievement Check *)
    let intermediateState :=
      {| GameState.level := newLevel;
         GameState.currentXp := newXp';
         GameState.totalXpNeeded := newTotalNeeded;
         GameState.completedTasks := GameState.completedTasks currentState + 1;
         GameState.momentum := newMomentum;
         GameState.combo :=
           {| Combo.count := comboCount;
              Combo.multiplier := comboMultiplier;
              Combo.lastCompletionTime := now |};
         GameState.achievements := GameState.achievements currentState |} in
    (* 7. Achievements *)
    let newAchievements := checkAchievements intermediateState task isFirstTask now in
    let finalAchievements := GameState.achievements currentState ++ newAchievements in
    let finalState :=
      {| GameState.level := GameState.level intermediateState;
         GameState.currentXp := GameState.currentXp intermediateState;
         GameState.totalXpNeeded := GameState.totalXpNeeded intermediateState;
         GameState.completedTasks := GameState.completedTasks intermediateState;
         GameState.momentum := GameState.momentum intermediateState;
         GameState.combo := GameState.combo intermediateState;
         GameState.achievements := finalAchievements |} in
    Some {| CompletionResult.newState := finalState;
            CompletionResult.newTasks := newTasks;
            CompletionResult.leveledUp := leveledUp;
            CompletionResult.xpGained := finalXp;
            CompletionResult.achievementsUnlocked := newAchievements;
            CompletionResult.comboTriggered := 1 <? comboCount |}
  end.

Definition createInitialState : GameState.t :=
  {| GameState.level := 1;
     GameState.currentXp := 0;
     GameState.totalXpNeeded := 1000;
     GameState.completedTasks := 0;
     GameState.momentum := [0; 100; 150; 120; 200]%float;
     GameState.combo :=
       {| Combo.count := 0; Combo.multiplier := 1.0%float;
          Combo.lastCompletionTime := 0 |};
     GameState.achievements := [] |}.

End IncentiveEngine.

Import IncentiveEngine.

(** ** The engine with the sums of the source

    [processTaskCompletion] once more, every [+] and [-] of the source on
    integers being the binary64 operation ([Num.add], [Num.sub]). *)

Module Binary64.

Definition processTaskCompletion (dateNow : Z) (taskId : string)
    (currentTasks : list GameTask.t) (currentState : GameState.t)
    (timestampOverride : option Z) : option CompletionResult.t :=
  match find (isTask taskId) currentTasks with
  | None => None
  | Some task =>
    if GameTask.completed task then None else
    (* 1. Update Task List *)
    let newTasks := markCompleted taskId <$> currentTasks in
    let isFirstTask := GameState.completedTasks currentState =? 0 in
    (* 2. Combo Calculation *)
    let now := default dateNow timestampOverride in
    let oldCombo := GameState.combo currentState in
    let timeDiff := Num.sub now (Combo.lastCompletionTime oldCombo) in
    let chained :=
      (timeDiff <? COMBO_WINDOW_MS) && (0 <? Combo.lastCompletionTime oldCombo) in
    let comboCount := if chained then Num.add (Combo.count oldCombo) 1 else 1 in
    let comboMultiplier :=
      if chained then (1.0 + Num.of_Z comboCount * 0.1)%float else 1.0%float in
    (* 3. XP Calculation *)
    let baseXp := GameTask.xp task in
    let finalXp := Num.floor (Num.of_Z baseXp * comboMultiplier)%float in
    (* 4. Level Calculation *)
    let newXp := Num.add (GameState.currentXp currentState) finalXp in
    let overflow := GameState.totalXpNeeded currentState <=? newXp in
    let newXp' :=
      if overflow then Num.sub newXp (GameState.totalXpNeeded currentState)
      else newXp in
    let newLevel :=
      if overflow then Num.add (GameState.level currentState) 1
      else GameState.level currentState in
    let newTotalNeeded :=
      if overflow then getNextLevelThreshold (GameState.totalXpNeeded currentState)
      else GameState.totalXpNeeded currentState in
    let leveledUp := overflow in
    (* 5. Momentum *)
    let newMomentum := calculateMomentum (GameState.momentum currentState) finalXp in
    (* 6. Intermediate State for Achievement Check *)
    let intermediateState :=
      {| GameState.level := newLevel;
         GameState.currentXp := newXp';
         GameState.totalXpNeeded := newTotalNeeded;
         GameState.completedTasks :=
           Num.add (GameState.completedTasks currentState) 1;
         GameState.momentum := newMomentum;
         GameState.combo :=
           {| Combo.count := comboCount;
              Combo.multiplier := comboMultiplier;
              Combo.lastCompletionTime := now |};
         GameState.achievements := GameState.achievements currentState |} in
    (* 7. Achievements *)
    let newAchievements := checkAchievements intermediateState task isFirstTask now in
    let finalAchievements := GameState.achievements currentState ++ newAchievements in
    let finalState :=
      {| GameState.level := GameState.level intermediateState;
         GameState.currentXp := GameState.currentXp intermediateState;
         GameState.totalXpNeeded := GameState.totalXpNeeded intermediateState;
         GameState.completedTasks := GameState.completedTasks intermediateState;
         GameState.momentum := GameState.momentum intermediateState;
         GameState.combo := GameState.combo intermediateState;
         GameState.achievements := finalAchievements |} in
    Some {| CompletionResult.newState := finalState;
            CompletionResult.newTasks := newTasks;
            CompletionResult.leveledUp := leveledUp;
            CompletionResult.xpGained := finalXp;
            CompletionResult.achievementsUnlocked := newAchievements;
            CompletionResult.comboTriggered := 1 <? comboCount |}
  end.

End Binary64.

(** ** Test-bench tasks (components/LibraryTestBench.tsx, [createDummyTask]) *)

Definition Difficulty_name (d : Difficulty) : string :=
  match d with
  | Rank_S => "S" | Rank_A => "A" | Rank_B => "B" | Rank_C => "C"
  end.

Definition createDummyTask (id : string) (diff : Difficulty) (xp : Z) : GameTask.t :=
  {| GameTask.id := id;
     GameTask.originalText := "Test Task " +:+ Difficulty_name diff;
     GameTask.questTitle := "Operation " +:+ Difficulty_name diff;
     GameTask.flavorText := "Simulation running...";
     GameTask.difficulty := diff;
     GameTask.xp := xp;
     GameTask.completed := false |}.

(** What a caller holds after a call: both callers (the [useVibeGame] hook
    and the test bench) replace their snapshot by [result.newState] when the
    result is not [null] and keep it otherwise. *)
Definition snapshotAfter (s : GameState.t) (result : option CompletionResult.t)
    : GameState.t :=
  from_option CompletionResult.newState s result.

(** ** The engine on the JavaScript heap

    Objects and arrays are heap cells reached through references; a
    primitive ([number], [string], [boolean]) is stored in the cell that
    holds it.  [HeapEngine] is [IncentiveEngine] again with every object
    and array of the source allocated, read and updated where the source
    does so: [find] and the property reads only read; [map], the spreads
    and the literals allocate; [shift] and [push] update the array they are
    called on. *)

Module Heap.

Abbreviation loc := nat.

(** The fields of a [GameState] object; the three last are references. *)
Record stateObj : Type := mkStateObj {
  level : Z;
  currentXp : Z;
  totalXpNeeded : Z;
  completedTasks : Z;
  momentum : loc;
  combo : loc;
  achievements : loc
}.

Inductive cell : Type :=
| TaskObj (t : GameTask.t)
| TaskArr (elems : list loc)
| NumArr (elems : list float)
| AchObj (a : Achievement.t)
| AchArr (elems : list loc)
| ComboObj (c : Combo.t)
| StateObj (st : stateObj).

Abbreviation heap := (list cell).

(** A computation on the heap.  [None] is a reference to a cell of another
    shape than the one the code expects, which the TypeScript types rule
    out. *)
Definition M (A : Type) : Type := heap → option (A * heap).

Definition ret {A} (a : A) : M A := λ h, Some (a, h).

Definition bind {A B} (m : M A) (f : A → M B) : M B :=
  λ h, match m h with
       | Some (a, h') => f a h'
       | None => None
       end.

(** A new cell, at the end of the heap. *)
Definition alloc (c : cell) : M loc := λ h, Some (length h, h ++ [c]).

(** In-place update of an existing cell. *)
Definition write (l : loc) (c : cell) : M unit :=
  λ h, if decide (l < length h)%nat then Some ((), <[l := c]> h) else None.

Definition taskAt (h : heap) (l : loc) : option GameTask.t :=
  match h !! l with Some (TaskObj t) => Some t | _ => None end.
Definition taskArrAt (h : heap) (l : loc) : option (list loc) :=
  match h !! l with Some (TaskArr elems) => Some elems | _ => None end.
Definition numArrAt (h : heap) (l : loc) : option (list float) :=
  match h !! l with Some (NumArr elems) => Some elems | _ => None end.
Definition achAt (h : heap) (l : loc) : option Achievement.t :=
  match h !! l with Some (AchObj a) => Some a | _ => None end.
Definition achArrAt (h : heap) (l : loc) : option (list loc) :=
  match h !! l with Some (AchArr elems) => Some elems | _ => None end.
Definition comboAt (h : heap) (l : loc) : option Combo.t :=
  match h !! l with Some (ComboObj c) => Some c | _ => None end.
Definition stateObjAt (h : heap) (l : loc) : option stateObj :=
  match h !! l with Some (StateObj st) => Some st | _ => None end.

(** Reading through a reference. *)
Definition read {A} (at_ : heap → loc → option A) (l : loc) : M A :=
  λ h, match at_ h l with Some a => Some (a, h) | None => None end.

(** The values the references stand for. *)
Definition tasksAt (h : heap) (l : loc) : option (list GameTask.t) :=
  match taskArrAt h l with
  | Some elems => mapM (taskAt h) elems
  | None => None
  end.

Definition achievementsAt (h : heap) (l : loc) : option (list Achievement.t) :=
  match achArrAt h l with
  | Some elems => mapM (achAt h) elems
  | None => None
  end.

Definition stateAt (h : heap) (l : loc) : option GameState.t :=
  match stateObjAt h l with
  | Some st =>
      match numArrAt h (momentum st), comboAt h (combo st),
            achievementsAt h (achievements st) with
      | Some m, Some c, Some a =>
          Some {| GameState.level := level st;
                  GameState.currentXp := currentXp st;
                  GameState.totalXpNeeded := totalXpNeeded st;
                  GameState.completedTasks := completedTasks st;
                  GameState.momentum := m;
                  GameState.combo := c;
                  GameState.achievements := a |}
      | _, _, _ => None
      end
  | None => None
  end.

(** [m] runs from [h] without failure, to a value and a heap that
    satisfy [Q]. *)
Definition wp {A} (m : M A) (h : heap) (Q : A → heap → Prop) : Prop :=
  match m h with
  | Some (a, h') => Q a h'
  | None => False
  end.

(** While [checkAchievements] runs from [h0], its array [newUnlocks] is
    the first cell after [h0] and holds references to achievement
    objects; [h0] itself is as it was. *)
Definition unlocking (h0 h : heap) (unlocked : list Achievement.t) : Prop :=
  ∃ elems objs,
    h = h0 ++ AchArr elems :: objs ∧ mapM (achAt h) elems = Some unlocked.

End Heap.

Module HeapEngine.
Import Heap.

#[local] Notation "'let!' x := m 'in' k" := (bind m (λ x, k))
  (at level 10, x name, k at level 200, only parsing).

(** The object [processTaskCompletion] returns: references and flags. *)
Record result : Type := mkResult {
  newState : loc;
  newTasks : loc;
  leveledUp : bool;
  xpGained : Z;
  achievementsUnlocked : loc;
  comboTriggered : bool
}.


Definition calculateMomentum (history : loc) (xpGain : Z) : M loc :=
  let! elems := read numArrAt history in
  let newValue := (lastValue elems + Num.of_Z xpGain * 0.5)%float in
  let! newMomentum := alloc (NumArr (elems ++ [newValue])) in
  let! elems' := read numArrAt newMomentum in
  let! _ := (if decide (MOMENTUM_HISTORY_LIMIT < length elems')%nat
             then write newMomentum (NumArr (shift elems'))
             else ret ()) in
  ret newMomentum.

(** [state.achievements.map(a => a.id)] *)
Fixpoint ids (elems : list loc) : M (list string) :=
  match elems with
  | [] => ret []
  | l :: rest =>
      let! a := read achAt l in
      let! k := ids rest in
      ret (Achievement.id a :: k)
  end.

(** [if (cond) newUnlocks.push({ ... })] *)
Definition pushIf (cond : bool) (a : Achievement.t) (newUnlocks : loc) : M unit :=
  if cond then
    let! o := alloc (AchObj a) in
    let! elems := read achArrAt newUnlocks in
    write newUnlocks (AchArr (elems ++ [o]))
  else ret ().

Definition checkAchievements (state task : loc) (isFirstTask : bool)
    (timestamp : Z) : M loc :=
  let! newUnlocks := alloc (AchArr []) in
  let! st := read stateObjAt state in
  let! achs := read achArrAt (achievements st) in
  let! idl := ids achs in
  let currentIds : gset string := list_to_set idl in
  let! _ := pushIf (isFirstTask && negb (has currentIds "FIRST_BLOOD"))
                   (FIRST_BLOOD timestamp) newUnlocks in
  let! st := read stateObjAt state in
  let! c := read comboAt (combo st) in
  let! _ := pushIf ((3 <=? Combo.count c) && negb (has currentIds "COMBO_MASTER"))
                   (COMBO_MASTER timestamp) newUnlocks in
  let! t := read taskAt task in
  let! _ := pushIf (bool_decide (GameTask.difficulty t = Rank_S)
                      && negb (has currentIds "LEGENDARY"))
                   (LEGENDARY timestamp) newUnlocks in
  let! st := read stateObjAt state in
  let! _ := pushIf ((3 <=? level st) && negb (has currentIds "VETERAN"))
                   (VETERAN timestamp) newUnlocks in
  ret newUnlocks.

(** [currentTasks.find(t => t.id === taskId)]: the reference found. *)
Fixpoint find (taskId : string) (elems : list loc) : M (option loc) :=
  match elems with
  | [] => ret None
  | l :: rest =>
      let! t := read taskAt l in
      if isTask taskId t then ret (Some l) else find taskId rest
  end.

(** [currentTasks.map(t => t.id === taskId ? { ...t, completed: true } : t)]:
    a new object for a task with the id, the same reference for another. *)
Fixpoint map (taskId : string) (elems : list loc) : M (list loc) :=
  match elems with
  | [] => ret []
  | l :: rest =>
      let! t := read taskAt l in
      let! l' := (if isTask taskId t then alloc (TaskObj (GameTask.complete t))
            else ret l) in
      let! k := map taskId rest in
      ret (l' :: k)
  end.

Definition processTaskCompletion (dateNow : Z) (taskId : string)
    (currentTasks currentState : loc) (timestampOverride : option Z)
    : M (option result) :=
  let! elems := read taskArrAt currentTasks in
  let! found := find taskId elems in
  match found with
  | None => ret None
  | Some task =>
    let! t := read taskAt task in
    if GameTask.completed t then ret None else
    (* 1. Update Task List *)
    let! newElems := map taskId elems in
    let! newTasks := alloc (TaskArr newElems) in
    let! st := read stateObjAt currentState in
    let isFirstTask := completedTasks st =? 0 in
    (* 2. Combo Calculation *)
    let now := default dateNow timestampOverride in
    let! oldCombo := read comboAt (combo st) in
    let timeDiff := now - Combo.lastCompletionTime oldCombo in
    let chained :=
      (timeDiff <? COMBO_WINDOW_MS) && (0 <? Combo.lastCompletionTime oldCombo) in
    let comboCount := if chained then Combo.count oldCombo + 1 else 1 in
    let comboMultiplier :=
      if chained then (1.0 + Num.of_Z comboCount * 0.1)%float else 1.0%float in
    (* 3. XP Calculation *)
    let baseXp := GameTask.xp t in
    let finalXp := Num.floor (Num.of_Z baseXp * comboMultiplier)%float in
    (* 4. Level Calculation *)
    let newXp := currentXp st + finalXp in
    let overflow := totalXpNeeded st <=? newXp in
    let newXp' := if overflow then newXp - totalXpNeeded st else newXp in
    let newLevel := if overflow then level st + 1 else level st in
    let newTotalNeeded :=
      if overflow then getNextLevelThreshold (totalXpNeeded st)
      else totalXpNeeded st in
    (* 5. Momentum *)
    let! newMomentum := calculateMomentum (momentum st) finalXp in
    (* 6. Intermediate State for Achievement Check *)
    let! newCombo := alloc (ComboObj {| Combo.count := comboCount;
                                  Combo.multiplier := comboMultiplier;
                                  Combo.lastCompletionTime := now |}) in
    let! intermediateState := alloc (StateObj
      {| level := newLevel;
         currentXp := newXp';
         totalXpNeeded := newTotalNeeded;
         completedTasks := completedTasks st + 1;
         momentum := newMomentum;
         combo := newCombo;
         achievements := achievements st |}) in
    (* 7. Achievements *)
    let! newAchievements := checkAchievements intermediateState task isFirstTask now in
    let! old := read achArrAt (achievements st) in
    let! new := read achArrAt newAchievements in
    let! finalAchievements := alloc (AchArr (old ++ new)) in
    (* Final State *)
    let! ist := read stateObjAt intermediateState in
    let! finalState := alloc (StateObj
      {| level := level ist;
         currentXp := currentXp ist;
         totalXpNeeded := totalXpNeeded ist;
         completedTasks := completedTasks ist;
         momentum := momentum ist;
         combo := combo ist;
         achievements := finalAchievements |}) in
    ret (Some {| newState := finalState;
                 newTasks := newTasks;
                 leveledUp := overflow;
                 xpGained := finalXp;
                 achievementsUnlocked := newAchievements;
                 comboTriggered := 1 <? comboCount |})
  end.

(** [createInitialState()]: four allocations. *)
Definition createInitialState : M loc :=
  let! m := alloc (NumArr [0; 100; 150; 120; 200]%float) in
  let! c := alloc (ComboObj {| Combo.count := 0; Combo.multiplier := 1.0%float;
                         Combo.lastCompletionTime := 0 |}) in
  let! a := alloc (AchArr []) in
  alloc (StateObj {| level := 1; currentXp := 0; totalXpNeeded := 1000;
                     completedTasks := 0; momentum := m; combo := c;
                     achievements := a |}).

End HeapEngine.

(** ** Notions the statements use *)

(** One rule of [checkAchievements]: the achievement is produced when its
    condition holds and its id is not in the set of unlocked ids. *)
Definition rule (ids : gset string) (cond : bool) (a : Achievement.t)
    : list Achievement.t :=
  if cond && negb (has ids (Achievement.id a)) then [a] else [].



(** Leveling as a loop: for as long as the XP reaches the threshold, the
    threshold is subtracted, the level grows by 1 and the threshold becomes
    floor (threshold * 1.5).  [fuel] bounds the number of rounds; the
    result is (XP, level, threshold). *)
Fixpoint levelLoop (fuel : nat) (xp level threshold : Z) : option (Z * Z * Z) :=
  if threshold <=? xp then
    match fuel with
    | O => None
    | Datatypes.S fuel' =>
        levelLoop fuel' (xp - threshold) (level + 1) (getNextLevelThreshold threshold)
    end
  else Some (xp, level, threshold).

(** The award of a call is at most the threshold of the next level,
    floor (threshold * 1.5) for the threshold of the snapshot the call
    starts from. *)
Definition awardWithinNextThreshold (s : GameState.t) (r : CompletionResult.t)
    : Prop :=
  CompletionResult.xpGained r ≤ getNextLevelThreshold (GameState.totalXpNeeded s).

(** The award as the specification words it, with the multiplier
    1.0 + count * 0.1 of a continued chain a real number:
    floor (baseXp * (1 + count / 10)), the integer part of
    baseXp * (10 + count) / 10; and baseXp when the chain resets. *)
Definition awardedXpInReals (baseXp newComboCount : Z) (chained : bool) : Z :=
  if chained then baseXp * (10 + newComboCount) / 10 else baseXp.

(** [t'] is [t] with [completed] true: every other field is that of [t]. *)
Definition completedCopy (t t' : GameTask.t) : Prop :=
  GameTask.id t' = GameTask.id t
  ∧ GameTask.originalText t' = GameTask.originalText t
  ∧ GameTask.questTitle t' = GameTask.questTitle t
  ∧ GameTask.flavorText t' = GameTask.flavorText t
  ∧ GameTask.difficulty t' = GameTask.difficulty t
  ∧ GameTask.xp t' = GameTask.xp t
  ∧ GameTask.completed t' = true.

(** The integers a call reads and forms are safe integers: the event time,
    the stored time and their difference; the combo count and the next
    one; the current XP, the award, their sum, the threshold and what is
    left after its subtraction; the level and the next one; the count of
    completed tasks and the next one. *)
Definition safeCompletion (now : Z) (s : GameState.t) (r : CompletionResult.t)
    : Prop :=
  let last := Combo.lastCompletionTime (GameState.combo s) in
  let count := Combo.count (GameState.combo s) in
  let xp := GameState.currentXp s in
  let gain := CompletionResult.xpGained r in
  let threshold := GameState.totalXpNeeded s in
  Num.safe now ∧ Num.safe last ∧ Num.safe (now - last)
  ∧ Num.safe count ∧ Num.safe (count + 1)
  ∧ Num.safe xp ∧ Num.safe gain ∧ Num.safe (xp + gain)
  ∧ Num.safe threshold ∧ Num.safe (xp + gain - threshold)
  ∧ Num.safe (GameState.level s) ∧ Num.safe (GameState.level s + 1)
  ∧ Num.safe (GameState.completedTasks s)
  ∧ Num.safe (GameState.completedTasks s + 1).

(** The integers that leveling reads and forms are safe integers: the
    current XP, the award and their sum, the level and the level after it,
    and the threshold, which is not negative and whose triple is below 2^53
    (so that threshold * 1.5 is computed without rounding). *)
Definition safeLeveling (s : GameState.t) (r : CompletionResult.t) : Prop :=
  Num.safe (GameState.currentXp s)
  ∧ Num.safe (CompletionResult.xpGained r)
  ∧ Num.safe (GameState.currentXp s + CompletionResult.xpGained r)
  ∧ Num.safe (GameState.level s)
  ∧ Num.safe (GameState.level s + 1)
  ∧ 0 ≤ GameState.totalXpNeeded s
  ∧ 3 * GameState.totalXpNeeded s < 2 ^ 53.

(** A call whose integers are safe, so that its sums are those the source
    computes, and whose award is at most the next threshold. *)
Definition safeAndWithinNextThreshold (now : Z) (s : GameState.t)
    (r : CompletionResult.t) : Prop :=
  safeCompletion now s r ∧ awardWithinNextThreshold s r.

(** The snapshots reached from [createInitialState] by calls that return a
    result, on task lists with unique ids and positive XP values, each call
    being subject to [ok], which is given the time of the event, the
    snapshot the call starts from and its result. *)
Inductive reachableBy (ok : Z → GameState.t → CompletionResult.t → Prop)
    : GameState.t → Prop :=
| reach_initial : reachableBy ok createInitialState
| reach_completion s dateNow taskId tasks ts r :
    reachableBy ok s →
    NoDup (GameTask.id <$> tasks) →
    Forall (λ t, 0 < GameTask.xp t) tasks →
    processTaskCompletion dateNow taskId tasks s ts = Some r →
    ok (default dateNow ts) s r →
    reachableBy ok (CompletionResult.newState r).

Definition reachable : GameState.t → Prop := reachableBy (λ _ _ _, True).

(** ** Inputs for the examples *)

Definition benchTasks : list GameTask.t :=
  [createDummyTask "t1" Rank_B 100; createDummyTask "t2" Rank_B 100;
   createDummyTask "t3" Rank_A 300; createDummyTask "t4" Rank_S 500;
   createDummyTask "t5" Rank_C 50; createDummyTask "t6" Rank_B 100;
   createDummyTask "t7" Rank_B 100; createDummyTask "t8" Rank_S 500].

(** Scenario A: the first task of the bench at t = 1000. *)
Definition scenarioA : option CompletionResult.t :=
  processTaskCompletion 0 "t1" benchTasks createInitialState (Some 1000).
Definition tasksA : list GameTask.t :=
  from_option CompletionResult.newTasks benchTasks scenarioA.
Definition stateA : GameState.t := snapshotAfter createInitialState scenarioA.

(** Scenario B: a second task 5 s later. *)
Definition scenarioB : option CompletionResult.t :=
  processTaskCompletion 0 "t2" tasksA stateA (Some 6000).
Definition tasksB : list GameTask.t :=
  from_option CompletionResult.newTasks tasksA scenarioB.
Definition stateB : GameState.t := snapshotAfter stateA scenarioB.

(** Scenario C: a third task 34 s after the second. *)
Definition scenarioC : option CompletionResult.t :=
  processTaskCompletion 0 "t3" tasksB stateB (Some 40000).

(** Scenario D: 950 of 1000 XP, then a task worth 100. *)
Definition stateD : GameState.t :=
  {| GameState.level := 1; GameState.currentXp := 950;
     GameState.totalXpNeeded := 1000; GameState.completedTasks := 4;
     GameState.momentum := [0; 100; 150; 120; 200]%float;
     GameState.combo := {| Combo.count := 1; Combo.multiplier := 1.0%float;
                           Combo.lastCompletionTime := 1000 |};
     GameState.achievements := [FIRST_BLOOD 1000] |}.
Definition scenarioD : option CompletionResult.t :=
  processTaskCompletion 0 "t1" benchTasks stateD (Some 90000).

(** Scenario E: a rank S task as the first completion. *)
Definition scenarioE : option CompletionResult.t :=
  processTaskCompletion 0 "t4" benchTasks createInitialState (Some 1000).

Definition tasksE : list GameTask.t :=
  from_option CompletionResult.newTasks benchTasks scenarioE.
Definition stateE : GameState.t := snapshotAfter createInitialState scenarioE.

(** Scenario G: after scenario E, the other rank S task 5 s later; its
    award of 600 XP brings the XP to 1100 and raises the level. *)
Definition scenarioG : option CompletionResult.t :=
  processTaskCompletion 0 "t8" tasksE stateE (Some 6000).

(** A first completion whose supplied timestamp is 0. *)
Definition scenarioZero : option CompletionResult.t :=
  processTaskCompletion 123456 "t1" benchTasks createInitialState (Some 0).

(** A snapshot on the verge of everything: no completion counted, a combo
    of 2 half a second ago, level 2 with 1400 of 1500 XP. *)
Definition stateVerge : GameState.t :=
  {| GameState.level := 2; GameState.currentXp := 1400;
     GameState.totalXpNeeded := 1500; GameState.completedTasks := 0;
     GameState.momentum := [];
     GameState.combo := {| Combo.count := 2; Combo.multiplier := 1.2%float;
                           Combo.lastCompletionTime := 500 |};
     GameState.achievements := [] |}.

(** A combo of 12, one second ago: the next completion within the window
    is the 13th of the chain. *)
Definition stateTwelve : GameState.t :=
  {| GameState.level := 2; GameState.currentXp := 700;
     GameState.totalXpNeeded := 1500; GameState.completedTasks := 12;
     GameState.momentum := [0; 100; 150; 120; 200]%float;
     GameState.combo := {| Combo.count := 12;
                           Combo.multiplier := (1.0 + Num.of_Z 12 * 0.1)%float;
                           Combo.lastCompletionTime := 1000 |};
     GameState.achievements := [FIRST_BLOOD 1000; COMBO_MASTER 1000] |}.

(** A task worth 45 XP, and a combo of 3, one second ago. *)
Definition oddTasks : list GameTask.t := [createDummyTask "odd" Rank_C 45].
Definition stateThree : GameState.t :=
  {| GameState.level := 1; GameState.currentXp := 300;
     GameState.totalXpNeeded := 1000; GameState.completedTasks := 3;
     GameState.momentum := [0; 100; 150; 120; 200]%float;
     GameState.combo := {| Combo.count := 3;
                           Combo.multiplier := (1.0 + Num.of_Z 3 * 0.1)%float;
                           Combo.lastCompletionTime := 1000 |};
     GameState.achievements := [FIRST_BLOOD 1000; COMBO_MASTER 1000] |}.

(** A snapshot at the end of the safe integers: 2^53 - 2 XP against a
    threshold of 2^53 - 1, and 2^53 completed tasks; and a task worth 3
    XP. *)
Definition stateHuge : GameState.t :=
  {| GameState.level := 1; GameState.currentXp := 9007199254740990;
     GameState.totalXpNeeded := 9007199254740991;
     GameState.completedTasks := 9007199254740992;
     GameState.momentum := [];
     GameState.combo := {| Combo.count := 0; Combo.multiplier := 1.0%float;
                           Combo.lastCompletionTime := 0 |};
     GameState.achievements := [] |}.
Definition smallTasks : list GameTask.t := [createDummyTask "small" Rank_C 3].

(** A first completion worth 5000 XP: [createInitialState] needs 1000 XP for
    level 2, 1500 more for level 3 and 2250 more for level 4. *)
Definition bossTasks : list GameTask.t := [createDummyTask "boss" Rank_S 5000].
Definition bossCompletion : option CompletionResult.t :=
  processTaskCompletion 0 "boss" bossTasks createInitialState (Some 1000).

(** A heap with two test-bench tasks in an array (reference 2) and the
    initial snapshot (reference 6). *)
Definition benchHeap : Heap.heap :=
  [Heap.TaskObj (createDummyTask "t1" Rank_B 100);
   Heap.TaskObj (createDummyTask "t4" Rank_S 500);
   Heap.TaskArr [0; 1]%nat;
   Heap.NumArr [0; 100; 150; 120; 200]%float;
   Heap.ComboObj {| Combo.count := 0; Combo.multiplier := 1.0%float;
                    Combo.lastCompletionTime := 0 |};
   Heap.AchArr [];
   Heap.StateObj {| Heap.level := 1; Heap.currentXp := 0;
                    Heap.totalXpNeeded := 1000; Heap.completedTasks := 0;
                    Heap.momentum := 3%nat; Heap.combo := 4%nat;
                    Heap.achievements := 5%nat |}].

(** ** The test bench (components/LibraryTestBench.tsx) *)

Module TestBench.

(** [`${ms/1000}`] for an integer [ms]: the quotient has at most three
    decimals, and JavaScript prints the double nearest to it as that
    decimal number without trailing zeros (magnitudes below 10^15). *)
Definition showSeconds (ms : Z) : string :=
  let a := Z.abs ms in
  let f := a mod 1000 in
  let fraction :=
    if f =? 0 then ""
    else if f mod 100 =? 0 then "." +:+ pretty (f / 100)
    else if f mod 10 =? 0 then "." +:+ pretty (f / 100) +:+ pretty (f / 10 mod 10)
    else "." +:+ pretty (f / 100) +:+ pretty (f / 10 mod 10) +:+ pretty (f mod 10) in
  (if ms <? 0 then "-" else "") +:+ pretty (a / 1000) +:+ fraction.

(** A line of the bench's log.  No call of [addLog] passes [details]: the
    field is always [undefined] and is left out. *)
Record LogEntry : Type := mkLogEntry {
  time : Z;
  message : string
}.

(** The three state cells of the component. *)
Record t : Type := mk {
  virtualTime : Z;
  gameState : GameState.t;
  logs : list LogEntry
}.

(** The state of the first render. *)
Definition initial : t :=
  {| virtualTime := 1000000;
     gameState := createInitialState;
     logs := [] |}.

(** [testTasks] *)
Definition testTasks : list GameTask.t :=
  [createDummyTask "t1" Rank_B 100; createDummyTask "t2" Rank_B 100;
   createDummyTask "t3" Rank_A 300; createDummyTask "t4" Rank_S 500;
   createDummyTask "t5" Rank_C 50; createDummyTask "t6" Rank_B 100;
   createDummyTask "t7" Rank_B 100; createDummyTask "t8" Rank_S 500].

(** [addLog]: the entry carries the virtual time of the render whose
    handler runs ([closureTime]) and is put in front. *)
Definition addLog (closureTime : Z) (msg : string) (logs : list LogEntry)
    : list LogEntry :=
  {| time := closureTime; message := msg |} :: logs.

Definition advanceTime (ms : Z) (b : t) : t :=
  {| virtualTime := virtualTime b + ms;
     gameState := gameState b;
     logs := addLog (virtualTime b)
               ("⏳ Time advanced by " +:+ showSeconds ms +:+ "s") (logs b) |}.

(** [executeTask]; [dateNow] and [random] are what [Date.now()] and
    [Math.random()], printed, contribute to the temporary id. *)
Definition executeTask (dateNow : Z) (random : string) (diff : Difficulty)
    (xp : Z) (b : t) : t :=
  let tempId := "temp-" +:+ pretty dateNow +:+ "-" +:+ random in
  let task := createDummyTask tempId diff xp in
  let currentTasks := testTasks ++ [task] in
  match processTaskCompletion dateNow tempId currentTasks (gameState b)
          (Some (virtualTime b)) with
  | Some result =>
      let msg := "✅ Completed [" +:+ Difficulty_name diff +:+ "] (+"
                 +:+ pretty (CompletionResult.xpGained result) +:+ " XP)" in
      let msg :=
        if CompletionResult.comboTriggered result
        then msg +:+ " 🔥 "
               +:+ pretty (Combo.count (GameState.combo
                                          (CompletionResult.newState result)))
               +:+ "x Combo!"
        else msg in
      let msg :=
        if CompletionResult.leveledUp result then msg +:+ " 🆙 LEVEL UP!" else msg in
      let logs1 := addLog (virtualTime b) msg (logs b) in
      let logs2 :=
        foldl (λ acc a, addLog (virtualTime b)
                          ("🏆 UNLOCKED: " +:+ Achievement.id a +:+ " "
                           +:+ Achievement.icon a) acc)
              logs1 (CompletionResult.achievementsUnlocked result) in
      (* Auto-advance time slightly *)
      advanceTime 5000
        {| virtualTime := virtualTime b;
           gameState := CompletionResult.newState result;
           logs := logs2 |}
  | None => b
  end.

Definition resetEngine (b : t) : t :=
  {| virtualTime := 1000000;
     gameState := createInitialState;
     logs := addLog (virtualTime b) "🔄 Engine Reset" [] |}.

(** A click on one of the bench's task buttons, with what the clock and
    the random generator give at that moment. *)
Record Click : Type := mkClick {
  clickNow : Z;
  clickRandom : string;
  clickDiff : Difficulty;
  clickXp : Z
}.

Definition click (b : t) (c : Click) : t :=
  executeTask (clickNow c) (clickRandom c) (clickDiff c) (clickXp c) b.

End TestBench.

(** ** The game hook (hooks/useVibeGame.ts) *)

Module HistoryLogEntry.

Inductive kind : Set := TASK_COMPLETE | LEVEL_UP | ACHIEVEMENT_UNLOCK | SESSION_START.

#[global] Instance kind_eq_dec : EqDecision kind.
Proof. solve_decision. Defined.

(** The shapes of [details] the hook passes. *)
Inductive details : Type :=
| XpCombo (xp : Z) (combo : bool)
| Level (level : Z)
| Unlock (id icon : string).

Record t : Type := mk {
  id : string;
  timestamp : Z;
  type : kind;
  message : string;
  detail : option details
}.

End HistoryLogEntry.

Module VibeGame.

Inductive GameEvent : Type :=
| COMPLETE (taskId : string) (xp : Z) (combo : option Z)
| LEVEL_UP (level : Z)
| ACHIEVEMENT (achievement : Achievement.t).

(** The four state cells of the hook. *)
Record t : Type := mk {
  tasks : list GameTask.t;
  gameState : GameState.t;
  events : list GameEvent;
  logs : list HistoryLogEntry.t
}.

(** The state of the first render. *)
Definition init (initialTasks : list GameTask.t)
    (initialGameState : option GameState.t)
    (initialLogs : list HistoryLogEntry.t) : t :=
  {| tasks := initialTasks;
     gameState := default createInitialState initialGameState;
     events := [];
     logs := initialLogs |}.

(** [PersistenceService.createLogEntry]; [stamp] is what
    [crypto.randomUUID()] and [Date.now()] give at the call. *)
Definition createLogEntry (stamp : string * Z) (type : HistoryLogEntry.kind)
    (message : string) (details : option HistoryLogEntry.details)
    : HistoryLogEntry.t :=
  {| HistoryLogEntry.id := stamp.1;
     HistoryLogEntry.timestamp := stamp.2;
     HistoryLogEntry.type := type;
     HistoryLogEntry.message := message;
     HistoryLogEntry.detail := details |}.

(** [completedTask?.questTitle || 'Unknown Mission'] *)
Definition titleOf (completedTask : option GameTask.t) : string :=
  match completedTask with
  | Some t => if String.eqb (GameTask.questTitle t) "" then "Unknown Mission"
              else GameTask.questTitle t
  | None => "Unknown Mission"
  end.

(** The events and log entries of a completion; the k-th call of
    [createLogEntry] gets [stamp k]. *)
Definition announce (stamp : nat → string * Z) (taskId : string)
    (tasks : list GameTask.t) (result : CompletionResult.t)
    : list GameEvent * list HistoryLogEntry.t :=
  let newState := CompletionResult.newState result in
  (* 1. Task Complete Logic *)
  let newEvents :=
    [COMPLETE taskId (CompletionResult.xpGained result)
       (if CompletionResult.comboTriggered result
        then Some (Combo.count (GameState.combo newState)) else None)] in
  let completedTask := find (isTask taskId) tasks in
  let newLogs :=
    [createLogEntry (stamp 0%nat) HistoryLogEntry.TASK_COMPLETE
       ("Completed: " +:+ titleOf completedTask)
       (Some (HistoryLogEntry.XpCombo (CompletionResult.xpGained result)
                (CompletionResult.comboTriggered result)))] in
  (* 2. Level Up Logic *)
  let '(newEvents, newLogs) :=
    if CompletionResult.leveledUp result
    then (newEvents ++ [LEVEL_UP (GameState.level newState)],
          newLogs ++ [createLogEntry (stamp (length newLogs))
                        HistoryLogEntry.LEVEL_UP
                        ("Promoted to Level " +:+ pretty (GameState.level newState))
                        (Some (HistoryLogEntry.Level (GameState.level newState)))])
    else (newEvents, newLogs) in
  (* 3. Achievement Logic *)
  foldl (λ '(newEvents, newLogs) ach,
           (newEvents ++ [ACHIEVEMENT ach],
            newLogs ++ [createLogEntry (stamp (length newLogs))
                          HistoryLogEntry.ACHIEVEMENT_UNLOCK
                          ("Unlocked: " +:+ Achievement.id ach)
                          (Some (HistoryLogEntry.Unlock (Achievement.id ach)
                                   (Achievement.icon ach)))]))
        (newEvents, newLogs) (CompletionResult.achievementsUnlocked result).

(** What a render hands to the [completeTask] it builds.  The callback is
    rebuilt when [tasks] or [gameState] change (its dependency list), and
    it reads both from the render that built it, not from the state
    cells. *)
Record closure : Type := mkClosure {
  seenTasks : list GameTask.t;
  seenGameState : GameState.t
}.

(** The closure of the render of the state cells [h]. *)
Definition render (h : t) : closure :=
  {| seenTasks := tasks h; seenGameState := gameState h |}.

(** [completeTask], built by the render [c] and called when the state cells
    are [h]: the new cells and the value returned.  The engine runs on the
    tasks and the snapshot of [c], without timestamp; [setTasks] and
    [setGameState] store what it returns, while [setEvents] and [setLogs]
    update what the cells hold ([prev => ...]).  The timer the call starts
    is [cleanup] below. *)
Definition completeTask (dateNow : Z) (stamp : nat → string * Z)
    (taskId : string) (c : closure) (h : t) : t * bool :=
  match processTaskCompletion dateNow taskId (seenTasks c) (seenGameState c)
          None with
  | Some result =>
      let '(newEvents, newLogs) := announce stamp taskId (seenTasks c) result in
      ({| tasks := CompletionResult.newTasks result;
          gameState := CompletionResult.newState result;
          events := events h ++ newEvents;
          logs := newLogs ++ logs h |}, true)
  | None => (h, false)
  end.


Definition addNewTasks (stamp : string * Z) (newTasks : list GameTask.t) (h : t) : t :=
  {| tasks := tasks h ++ newTasks;
     gameState := gameState h;
     events := events h;
     logs := createLogEntry stamp HistoryLogEntry.SESSION_START
               ("Received " +:+ pretty (length newTasks) +:+ " new orders.") None
             :: logs h |}.

(** The calls a client makes. *)
Inductive action : Type :=
| Complete (dateNow : Z) (stamp : nat → string * Z) (taskId : string)
| AddTasks (stamp : string * Z) (newTasks : list GameTask.t).


(** A call made after the component has rendered the state cells [h]: the
    [completeTask] that is called is the one built by that render.  (A
    second call from the same render is [completeTask] with the closure of
    the first one again; [addNewTasks] reads nothing from its render.) *)
Definition callAfterRender (h : t) (a : action) : t :=
  match a with
  | Complete dateNow stamp taskId =>
      (completeTask dateNow stamp taskId (render h) h).1
  | AddTasks stamp newTasks => addNewTasks stamp newTasks h
  end.





End VibeGame.

(** ** Inputs for the examples of the bench and of the hook *)


(** Ids and times for the log entries of the hook. *)
Definition logStamp (k : nat) : string * Z :=
  ("log-" +:+ pretty k, 1700000000000 + Z.of_nat k).

(** The hook on the tasks of the bench, without saved state. *)
Definition benchHook : VibeGame.t := VibeGame.init benchTasks None [].

(** * Properties *)

(** ** Proof support *)

(** Opens a successful call: names the task that was found, records that it
    was not yet completed, and replaces the result by the record built at
    the end of [processTaskCompletion]. *)
Ltac open_completion H task Hfind Hdone :=
  unfold processTaskCompletion in H;
  match type of H with
  | context [find ?p ?l] =>
      destruct (find p l) as [task|] eqn:Hfind; [|discriminate H]
  end;
  destruct (GameTask.completed task) eqn:Hdone; [discriminate H|];
  injection H as <-;
  cbn [CompletionResult.newState CompletionResult.newTasks
       CompletionResult.leveledUp CompletionResult.xpGained
       CompletionResult.achievementsUnlocked CompletionResult.comboTriggered
       GameState.level GameState.currentXp GameState.totalXpNeeded
       GameState.completedTasks GameState.momentum GameState.combo
       GameState.achievements Combo.count Combo.multiplier
       Combo.lastCompletionTime].

(** ** Safe integers in binary64 *)

Section Exact.
Import Num.

Lemma digits2_pos_bounds m :
  2 ^ (Z.pos (digits2_pos m) - 1) ≤ Z.pos m < 2 ^ Z.pos (digits2_pos m).
Proof.
  induction m as [m IH|m IH|]; cbn [digits2_pos]; [| |by cbn].
  - rewrite Pos2Z.inj_succ, (Pos2Z.inj_xI m).
    replace (Z.succ (Z.pos (digits2_pos m)) - 1)
      with (Z.succ (Z.pos (digits2_pos m) - 1)) by lia.
    rewrite !Z.pow_succ_r by lia. lia.
  - rewrite Pos2Z.inj_succ, (Pos2Z.inj_xO m).
    replace (Z.succ (Z.pos (digits2_pos m)) - 1)
      with (Z.succ (Z.pos (digits2_pos m) - 1)) by lia.
    rewrite !Z.pow_succ_r by lia. lia.
Qed.

Lemma digits2_pos_le m n : Z.pos m < 2 ^ n → Z.pos (digits2_pos m) ≤ n.
Proof.
  intros Hm. destruct (Z.le_gt_cases (Z.pos (digits2_pos m)) n) as [|Hlt]; [done|].
  pose proof (digits2_pos_bounds m) as [Hlo _].
  assert (0 ≤ n).
  { destruct (Z.le_gt_cases 0 n); [done|]. rewrite Z.pow_neg_r in Hm; lia. }
  assert (2 ^ n ≤ 2 ^ (Z.pos (digits2_pos m) - 1))
    by (apply Z.pow_le_mono_r; lia).
  lia.
Qed.

Lemma shl_0 m : shl m 0 = m.
Proof. done. Qed.

Lemma Zpos_shl m k : 0 ≤ k → Z.pos (shl m k) = Z.pos m * 2 ^ k.
Proof.
  destruct k as [|p|p]; [cbn; lia| |lia]. intros _. cbn [shl].
  induction p as [|p IH] using Pos.peano_ind.
  - cbn. lia.
  - rewrite Pos.iter_succ, (Pos2Z.inj_xO (Pos.iter xO m p)), IH, Pos2Z.inj_succ, Z.pow_succ_r; lia.
Qed.

Lemma digits_shl m k :
  0 ≤ k → Z.pos (digits2_pos (shl m k)) = Z.pos (digits2_pos m) + k.
Proof.
  destruct k as [|p|p]; [cbn; lia| |lia]. intros _. cbn [shl].
  induction p as [|p IH] using Pos.peano_ind.
  - cbn [Pos.iter digits2_pos]. lia.
  - rewrite Pos.iter_succ. cbn [digits2_pos]. lia.
Qed.

Lemma shl_shl m j k : 0 ≤ j → 0 ≤ k → shl (shl m j) k = shl m (j + k).
Proof.
  intros Hj Hk. apply Pos2Z.inj.
  rewrite !Zpos_shl, Z.pow_add_r by lia. lia.
Qed.

(** Shifting right what was shifted left loses nothing. *)
Lemma iter_shr_1_shl p a :
  SpecFloat.iter_pos shr_1 p (Build_shr_record (Z.pos (Pos.iter xO a p)) false false)
  = Build_shr_record (Z.pos a) false false.
Proof.
  revert a. induction p as [p IH|p IH|]; intros a; cbn [SpecFloat.iter_pos Pos.iter].
  - cbn [shr_1 orb]. by rewrite !IH.
  - by rewrite !IH.
  - done.
Qed.

Lemma shr_shl a k j e :
  0 ≤ j ≤ k →
  shr (Build_shr_record (Z.pos (shl a k)) false false) e j
  = (Build_shr_record (Z.pos (shl a (k - j))) false false, e + j).
Proof.
  intros Hj. destruct j as [|p|p]; [| |lia].
  - by rewrite Z.sub_0_r, Z.add_0_r.
  - replace (shl a k) with (shl (shl a (k - Z.pos p)) (Z.pos p))
      by (rewrite shl_shl by lia; f_equal; lia).
    cbn [shr shl]. by rewrite iter_shr_1_shl.
Qed.

Lemma fexp_normal x : -1074 ≤ x - 53 → fexp prec emax x = x - 53.
Proof. unfold fexp, emin, prec, emax. lia. Qed.

(** A mantissa that is a number of at most 53 digits shifted left is
    brought to 53 digits without loss. *)
Lemma shr_fexp_exact (n : positive) (k e : Z) :
  let d := Z.pos (digits2_pos n) in
  0 ≤ k → d ≤ 53 ≤ d + k → -1074 ≤ e + k + d - 53 →
  shr_fexp prec emax (Z.pos (shl n k)) e loc_Exact
  = (Build_shr_record (Z.pos (shl n (53 - d))) false false, e + k + d - 53).
Proof.
  intros d Hk Hd He. unfold shr_fexp. cbn [Zdigits2 shr_record_of_loc].
  rewrite digits_shl, fexp_normal by (fold d; lia). fold d.
  replace (d + k + e - 53 - e) with (k + d - 53) by lia.
  rewrite shr_shl by lia.
  replace (k - (k + d - 53)) with (53 - d) by lia.
  by replace (e + (k + d - 53)) with (e + k + d - 53) by lia.
Qed.

Lemma binary_round_aux_exact s (n : positive) (k e : Z) :
  let d := Z.pos (digits2_pos n) in
  0 ≤ k → d ≤ 53 ≤ d + k → -1074 ≤ e + k + d - 53 ≤ 971 →
  binary_round_aux prec emax s (Z.pos (shl n k)) e loc_Exact
  = S754_finite s (shl n (53 - d)) (e + k + d - 53).
Proof.
  intros d Hk Hd He. unfold binary_round_aux.
  rewrite shr_fexp_exact by (fold d; lia). fold d.
  cbn [shr_m loc_of_shr_record round_nearest_even].
  rewrite shr_fexp_exact by (fold d; lia). fold d.
  cbn [shr_m].
  replace (e + k + d - 53 + (53 - d) + d - 53) with (e + k + d - 53) by lia.
  assert ((e + k + d - 53 <=? emax - prec) = true) as ->
    by (apply Z.leb_le; unfold emax, prec; lia).
  done.
Qed.

Lemma binary_round_exact s (n : positive) (k e : Z) :
  let d := Z.pos (digits2_pos n) in
  0 ≤ k → d ≤ 53 → -1074 ≤ e + k + d - 53 ≤ 971 →
  binary_round prec emax s (shl n k) e
  = S754_finite s (shl n (53 - d)) (e + k + d - 53).
Proof.
  intros d Hk Hd He. unfold binary_round, shl_align.
  rewrite digits_shl, fexp_normal by (fold d; lia). fold d.
  destruct (d + k + e - 53 - e) as [|p|p] eqn:Hs.
  - apply binary_round_aux_exact; fold d; lia.
  - apply binary_round_aux_exact; fold d; lia.
  - change (Pos.iter xO (shl n k) p) with (shl (shl n k) (Z.pos p)).
    rewrite shl_shl by lia.
    rewrite binary_round_aux_exact by (fold d; lia). fold d.
    f_equal. lia.
Qed.

(** The representation of a safe integer. *)
Lemma safe_digits n : Z.pos n < 2 ^ 53 → 1 ≤ Z.pos (digits2_pos n) ≤ 53.
Proof. intros H. split; [lia|]. by apply digits2_pos_le. Qed.

Lemma normalize_scaled w k :
  safe w → 0 ≤ k →
  binary_normalize prec emax (w * 2 ^ k) (- k) false = canon w.
Proof.
  intros [Hlo Hhi] Hk.
  assert (0 < 2 ^ k) by (apply Z.pow_pos_nonneg; lia).
  destruct w as [|n|n]; [done| |].
  - pose proof (safe_digits n Hhi).
    rewrite <- Zpos_shl by lia. cbn [binary_normalize canon].
    rewrite binary_round_exact by lia. f_equal. lia.
  - assert (Z.pos n < 2 ^ 53) as Hn by lia. pose proof (safe_digits n Hn).
    replace (Z.neg n * 2 ^ k) with (Z.neg (shl n k))
      by (rewrite <- !Pos2Z.opp_pos, Zpos_shl by lia; lia).
    cbn [binary_normalize canon].
    rewrite binary_round_exact by lia. f_equal. lia.
Qed.

Lemma valid_canon w : safe w → valid_binary (canon w) = true.
Proof.
  intros [Hlo Hhi].
  assert (∀ n, Z.pos n < 2 ^ 53 →
    bounded prec emax (shl n (53 - Z.pos (digits2_pos n)))
      (Z.pos (digits2_pos n) - 53) = true) as Hb.
  { intros n Hn. pose proof (safe_digits n Hn).
    unfold bounded, canonical_mantissa.
    rewrite digits_shl, fexp_normal by lia.
    apply andb_true_intro. split; [apply Z.eqb_eq; lia|].
    apply Z.leb_le. unfold emax, prec. lia. }
  destruct w as [|n|n]; [done| |]; cbn [canon SpecFloat.valid_binary];
    apply Hb; lia.
Qed.

Lemma Prim2SF_of_Z w : safe w → Prim2SF (of_Z w) = canon w.
Proof.
  intros Hw. unfold of_Z.
  replace (binary_normalize prec emax w 0 false) with (canon w).
  - by apply Prim2SF_SF2Prim, valid_canon.
  - symmetry. rewrite <- (normalize_scaled w 0) by (done || lia).
    f_equal. lia.
Qed.

Lemma floor_canon w : safe w → Num.floor (SF2Prim (canon w)) = w.
Proof.
  intros Hw. unfold Num.floor.
  rewrite Prim2SF_SF2Prim by by apply valid_canon.
  destruct Hw as [Hlo Hhi].
  assert (∀ n, Z.pos n < 2 ^ 53 →
            let d := Z.pos (digits2_pos n) in
            (if 0 <=? d - 53
             then Z.pos (shl n (53 - d)) * 2 ^ (d - 53)
             else Z.pos (shl n (53 - d)) / 2 ^ (- (d - 53))) = Z.pos n
            ∧ (if 0 <=? d - 53
               then Z.neg (shl n (53 - d)) * 2 ^ (d - 53)
               else Z.neg (shl n (53 - d)) / 2 ^ (- (d - 53))) = Z.neg n) as Hv.
  { intros n Hn d. pose proof (safe_digits n Hn). fold d in H.
    rewrite <- !Pos2Z.opp_pos, Zpos_shl by lia.
    destruct (Z.leb_spec 0 (d - 53)).
    - replace (d - 53) with 0 by lia. replace (53 - d) with 0 by lia.
      cbn. lia.
    - replace (- (d - 53)) with (53 - d) by lia.
      assert (0 < 2 ^ (53 - d)) by (apply Z.pow_pos_nonneg; lia).
      rewrite <- Z.mul_opp_l, !Z.div_mul by lia. done. }
  destruct w as [|n|n]; [done| |]; cbn [canon]; apply Hv; lia.
Qed.

(** The mantissa of a safe integer, aligned to a smaller exponent. *)
Lemma aligned w s m e ez :
  safe w → canon w = S754_finite s m e → ez ≤ e →
  cond_Zopp s (Z.pos (fst (shl_align m e ez))) = w * 2 ^ (- ez) ∧ e ≤ 0.
Proof.
  intros [Hlo Hhi] Hc He.
  assert (∀ n, Z.pos n < 2 ^ 53 →
            m = shl n (53 - Z.pos (digits2_pos n)) →
            e = Z.pos (digits2_pos n) - 53 →
            Z.pos (fst (shl_align m e ez)) = Z.pos n * 2 ^ (- ez) ∧ e ≤ 0) as Hv.
  { intros n Hn -> ->. pose proof (safe_digits n Hn). split; [|lia].
    unfold shl_align.
    destruct (ez - (Z.pos (digits2_pos n) - 53)) as [|p|p] eqn:Hs; cbn [fst].
    - rewrite Zpos_shl by lia. do 2 f_equal. lia.
    - lia.
    - change (Pos.iter xO ?x p) with (shl x (Z.pos p)).
      rewrite shl_shl, Zpos_shl by lia. do 2 f_equal. lia. }
  destruct w as [|n|n]; [done| |]; cbn [canon] in Hc;
    injection Hc as <- Hm Hexp; cbn [cond_Zopp].
  - by apply Hv.
  - destruct (Hv n) as [-> ?]; [lia|done|done|]. split; [|done].
    rewrite <- Pos2Z.opp_pos. lia.
Qed.

Lemma canon_finite w : w ≠ 0 → ∃ s m e, canon w = S754_finite s m e.
Proof. destruct w; [done| |]; intros _; cbn [canon]; eauto. Qed.

Lemma SFadd_canon x y :
  safe x → safe y → safe (x + y) →
  SF64add (canon x) (canon y) = canon (x + y).
Proof.
  intros Hx Hy Hxy.
  destruct (decide (x = 0)) as [->|Hx0];
    [rewrite Z.add_0_l; by destruct y|].
  destruct (decide (y = 0)) as [->|Hy0];
    [rewrite Z.add_0_r; by destruct x|].
  destruct (canon_finite x Hx0) as (sx & mx & ex & Ex).
  destruct (canon_finite y Hy0) as (sy & my & ey & Ey).
  rewrite Ex, Ey. unfold SF64add, SFadd.
  destruct (aligned x sx mx ex (Z.min ex ey) Hx Ex) as [-> ?]; [lia|].
  destruct (aligned y sy my ey (Z.min ex ey) Hy Ey) as [-> ?]; [lia|].
  rewrite <- Z.mul_add_distr_r.
  rewrite <- (Z.opp_involutive (Z.min ex ey)) at 2.
  apply normalize_scaled; [done|lia].
Qed.

Lemma SFsub_canon x y :
  safe x → safe y → safe (x - y) →
  SF64sub (canon x) (canon y) = canon (x - y).
Proof.
  intros Hx Hy Hxy.
  destruct (decide (y = 0)) as [->|Hy0];
    [rewrite Z.sub_0_r; by destruct x|].
  destruct (decide (x = 0)) as [->|Hx0]; [by destruct y|].
  destruct (canon_finite x Hx0) as (sx & mx & ex & Ex).
  destruct (canon_finite y Hy0) as (sy & my & ey & Ey).
  rewrite Ex, Ey. unfold SF64sub, SFsub.
  destruct (aligned x sx mx ex (Z.min ex ey) Hx Ex) as [-> ?]; [lia|].
  destruct (aligned y sy my ey (Z.min ex ey) Hy Ey) as [-> ?]; [lia|].
  rewrite <- Z.mul_sub_distr_r.
  rewrite <- (Z.opp_involutive (Z.min ex ey)) at 2.
  apply normalize_scaled; [done|lia].
Qed.

(** On safe integers with a safe result, the binary64 sum and difference
    are the sum and the difference. *)
Lemma add_safe x y : safe x → safe y → safe (x + y) → Num.add x y = x + y.
Proof.
  intros Hx Hy Hxy. unfold Num.add.
  rewrite <- (floor_canon (x + y)) by done. f_equal.
  apply Prim2SF_inj.
  rewrite add_spec, !Prim2SF_of_Z, SFadd_canon by done.
  symmetry. by apply Prim2SF_SF2Prim, valid_canon.
Qed.

Lemma sub_safe x y : safe x → safe y → safe (x - y) → Num.sub x y = x - y.
Proof.
  intros Hx Hy Hxy. unfold Num.sub.
  rewrite <- (floor_canon (x - y)) by done. f_equal.
  apply Prim2SF_inj.
  rewrite sub_spec, !Prim2SF_of_Z, SFsub_canon by done.
  symmetry. by apply Prim2SF_SF2Prim, valid_canon.
Qed.

(** Products of shifted mantissas, when the product of the numbers has at
    most 53 digits. *)
Lemma SFmul_exact sx nx kx ex sy ny ky ey :
  let d := Z.pos (digits2_pos (nx * ny)) in
  0 ≤ kx → 0 ≤ ky → d ≤ 53 ≤ d + kx + ky →
  -1074 ≤ ex + ey + kx + ky + d - 53 ≤ 971 →
  SF64mul (S754_finite sx (shl nx kx) ex) (S754_finite sy (shl ny ky) ey)
  = S754_finite (xorb sx sy) (shl (nx * ny) (53 - d))
      (ex + ey + kx + ky + d - 53).
Proof.
  intros d Hkx Hky Hd He. unfold SF64mul, SFmul.
  replace (shl nx kx * shl ny ky)%positive with (shl (nx * ny) (kx + ky)).
  - rewrite binary_round_aux_exact by (fold d; lia). fold d. f_equal. lia.
  - apply Pos2Z.inj.
    rewrite Pos2Z.inj_mul, !Zpos_shl, Pos2Z.inj_mul, Z.pow_add_r by lia. lia.
Qed.

(** [Math.floor (x * 1.0)] is [x]. *)
Lemma floor_mul_one x : safe x → Num.floor (of_Z x * 1)%float = x.
Proof.
  intros Hx. rewrite <- (floor_canon x) at 2 by done. f_equal.
  apply Prim2SF_inj. rewrite mul_spec, Prim2SF_of_Z by done.
  rewrite Prim2SF_SF2Prim by by apply valid_canon.
  change (Prim2SF 1) with (S754_finite false (shl 1 52) (-52)).
  destruct Hx as [Hlo Hhi].
  destruct x as [|n|n]; [done| |]; cbn [canon].
  - pose proof (safe_digits n Hhi).
    rewrite SFmul_exact; rewrite ?Pos.mul_1_r; try lia. f_equal. lia.
  - assert (Z.pos n < 2 ^ 53) as Hn by lia. pose proof (safe_digits n Hn).
    rewrite SFmul_exact; rewrite ?Pos.mul_1_r; try lia. f_equal. lia.
Qed.

(** [Math.floor (t * 1.5)] is the integer part of [3 t / 2]. *)
Lemma floor_mul_three_halves t :
  0 ≤ t → 3 * t < 2 ^ 53 → Num.floor (of_Z t * 1.5)%float = 3 * t / 2.
Proof.
  intros Ht Hhi. unfold Num.floor.
  rewrite mul_spec, Prim2SF_of_Z by (unfold safe; lia).
  change (Prim2SF 1.5) with (S754_finite false (shl 3 51) (-52)).
  destruct t as [|n|n]; [done| |lia]. cbn [canon].
  assert (Z.pos n < 2 ^ 53) as Hn by lia.
  pose proof (safe_digits n Hn).
  assert (Z.pos (n * 3) < 2 ^ 53) as Hn3 by lia.
  pose proof (safe_digits (n * 3) Hn3).
  assert (Z.pos (digits2_pos n) ≤ Z.pos (digits2_pos (n * 3))).
  { apply digits2_pos_le.
    pose proof (digits2_pos_bounds (n * 3)). lia. }
  rewrite SFmul_exact by lia. cbn [xorb].
  set (d := Z.pos (digits2_pos (n * 3))) in *.
  assert ((0 <=? Z.pos (digits2_pos n) - 53 + -52
                 + (53 - Z.pos (digits2_pos n)) + 51 + d - 53) = false) as ->
    by (apply Z.leb_gt; lia).
  rewrite Zpos_shl by lia.
  replace (- (Z.pos (digits2_pos n) - 53 + -52
              + (53 - Z.pos (digits2_pos n)) + 51 + d - 53))
    with (Z.succ (53 - d)) by lia.
  rewrite Z.pow_succ_r by lia.
  assert (0 < 2 ^ (53 - d)) by (apply Z.pow_pos_nonneg; lia).
  rewrite Z.div_mul_cancel_r by lia.
  f_equal. lia.
Qed.
End Exact.

(** Beyond the safe integers the binary64 sum is not the sum: the source's
    [x + 1] at 2^53 is 2^53. *)
Example add_beyond_the_safe_integers :
  Num.add 9007199254740992 1 = 9007199254740992.
Proof. by vm_compute. Qed.

(** ** The sums of the source *)

(** X21: on safe integers the engine with the sums of [Z] is the engine
    with the binary64 sums of the source.  The two return no result on the
    same calls; and a result of the first is the result of the second when
    the integers the call reads and forms are safe integers. *)
Theorem sums_are_binary64 dateNow taskId tasks s ts :
  (processTaskCompletion dateNow taskId tasks s ts = None
   ↔ Binary64.processTaskCompletion dateNow taskId tasks s ts = None)
  ∧ ∀ r, processTaskCompletion dateNow taskId tasks s ts = Some r →
         safeCompletion (default dateNow ts) s r →
         Binary64.processTaskCompletion dateNow taskId tasks s ts = Some r.
Proof.
  unfold processTaskCompletion, Binary64.processTaskCompletion.
  destruct (find (isTask taskId) tasks) as [task|]; [|done].
  destruct (GameTask.completed task); [done|]. split; [done|].
  intros r [= <-]. unfold safeCompletion.
  cbn [CompletionResult.xpGained].
  intros (Hnow & Hlast & Hdiff & Hcount & Hcount' & Hxp & Hgain & Hsum
          & Hthreshold & Hrest & Hlevel & Hlevel' & Hdone & Hdone').
  cbn zeta.
  rewrite (sub_safe _ _ Hnow Hlast Hdiff), (add_safe _ 1 Hcount) by done.
  rewrite (add_safe _ _ Hxp Hgain Hsum), (sub_safe _ _ Hsum Hthreshold Hrest).
  rewrite (add_safe _ 1 Hlevel), (add_safe _ 1 Hdone) by done.
  reflexivity.
Qed.

(** Beyond the safe integers the two differ, and the second is the
    source: (2^53 - 2) + 3 rounds to 2^53, which leaves 1 XP after the
    threshold 2^53 - 1 where the sum of [Z] leaves 2, and the count of
    completed tasks stays 2^53. *)
Example sums_round_beyond_the_safe_integers :
  let r64 := Binary64.processTaskCompletion 0 "small" smallTasks stateHuge (Some 1) in
  let r := processTaskCompletion 0 "small" smallTasks stateHuge (Some 1) in
  (GameState.currentXp ∘ CompletionResult.newState <$> r64) = Some 1
  ∧ (GameState.completedTasks ∘ CompletionResult.newState <$> r64)
    = Some 9007199254740992
  ∧ (GameState.currentXp ∘ CompletionResult.newState <$> r) = Some 2
  ∧ (GameState.completedTasks ∘ CompletionResult.newState <$> r)
    = Some 9007199254740993.
Proof. by vm_compute. Qed.

(** ** Achievement evaluation *)

Lemma checkAchievements_rules state task isFirstTask timestamp :
  checkAchievements state task isFirstTask timestamp
  = rule (currentIds state) isFirstTask (FIRST_BLOOD timestamp)
    ++ rule (currentIds state) (3 <=? Combo.count (GameState.combo state))
         (COMBO_MASTER timestamp)
    ++ rule (currentIds state)
         (bool_decide (GameTask.difficulty task = Rank_S)) (LEGENDARY timestamp)
    ++ rule (currentIds state) (3 <=? GameState.level state) (VETERAN timestamp).
Proof.
  unfold checkAchievements, rule, pushIf.
  cbn [Achievement.id FIRST_BLOOD COMBO_MASTER LEGENDARY VETERAN].
  repeat match goal with
  | |- context [if ?b && ?c then _ else _] => destruct (b && c)
  end; reflexivity.
Qed.

Lemma has_currentIds state x :
  has (currentIds state) x = true
  ↔ x ∈ Achievement.id <$> GameState.achievements state.
Proof.
  unfold has, currentIds. rewrite bool_decide_eq_true.
  apply elem_of_list_to_set.
Qed.

Lemma elem_of_rule ids cond a a' :
  a' ∈ rule ids cond a ↔ a' = a ∧ cond = true ∧ has ids (Achievement.id a) = false.
Proof.
  unfold rule. destruct cond, (has ids _); cbn [andb negb];
    rewrite ?list_elem_of_singleton, ?elem_of_nil; intuition congruence.
Qed.

Lemma rule_sublist ids cond a : rule ids cond a `sublist_of` [a].
Proof.
  unfold rule. destruct (_ && _); [done|]. apply sublist_nil_l.
Qed.

(** Whatever [checkAchievements] returns was not unlocked before. *)
Lemma checkAchievements_fresh state task isFirstTask timestamp a :
  a ∈ checkAchievements state task isFirstTask timestamp →
  Achievement.id a ∉ Achievement.id <$> GameState.achievements state.
Proof.
  rewrite checkAchievements_rules, !elem_of_app, !elem_of_rule.
  rewrite <- has_currentIds.
  intros [H|[H|[H|H]]]; destruct H as (-> & _ & ->); done.
Qed.

(** The returned achievements are a selection, in order, of the four. *)
Lemma checkAchievements_sublist state task isFirstTask timestamp :
  checkAchievements state task isFirstTask timestamp
  `sublist_of` [FIRST_BLOOD timestamp; COMBO_MASTER timestamp;
                LEGENDARY timestamp; VETERAN timestamp].
Proof.
  rewrite checkAchievements_rules.
  repeat apply (sublist_app _ [_]); apply rule_sublist.
Qed.

Lemma eqb_decide (a b : Z) : (a =? b) = bool_decide (a = b).
Proof.
  destruct (Z.eqb_spec a b);
    [by rewrite bool_decide_eq_true_2|by rewrite bool_decide_eq_false_2].
Qed.

Lemma leb_decide (a b : Z) : (a <=? b) = bool_decide (a ≤ b).
Proof.
  destruct (Z.leb_spec a b);
    [rewrite bool_decide_eq_true_2|rewrite bool_decide_eq_false_2]; lia.
Qed.

Lemma negb_has state x :
  negb (has (currentIds state) x)
  = bool_decide (x ∉ Achievement.id <$> GameState.achievements state).
Proof.
  destruct (has _ x) eqn:E; cbn [negb]; symmetry.
  - apply has_currentIds in E. by apply bool_decide_eq_false_2; intros [].
  - apply bool_decide_eq_true_2. rewrite <- has_currentIds. congruence.
Qed.

(** C4: a call that returns a result evaluates four rules, in the order
    FIRST_BLOOD, COMBO_MASTER, LEGENDARY, VETERAN; each yields its
    achievement, stamped with the event time, when its condition holds
    (completed-task count 0 before the event; new combo count at least 3;
    rank S task; new level at least 3) and its id is not among the ids
    already unlocked; the returned list is the concatenation of what the
    four yield, and the accumulated list is the old one followed by it. *)
Theorem four_achievement_rules dateNow taskId tasks s ts r :
  processTaskCompletion dateNow taskId tasks s ts = Some r →
  ∃ task, find (isTask taskId) tasks = Some task ∧
    let now := default dateNow ts in
    let s' := CompletionResult.newState r in
    let locked (id : string) :=
      bool_decide (id ∉ Achievement.id <$> GameState.achievements s) in
    CompletionResult.achievementsUnlocked r
    = (if bool_decide (GameState.completedTasks s = 0) && locked "FIRST_BLOOD"
       then [Achievement.mk "FIRST_BLOOD" "⚔️" (Some now)] else [])
      ++ (if bool_decide (3 ≤ Combo.count (GameState.combo s'))
             && locked "COMBO_MASTER"
          then [Achievement.mk "COMBO_MASTER" "🔥" (Some now)] else [])
      ++ (if bool_decide (GameTask.difficulty task = Rank_S) && locked "LEGENDARY"
          then [Achievement.mk "LEGENDARY" "👑" (Some now)] else [])
      ++ (if bool_decide (3 ≤ GameState.level s') && locked "VETERAN"
          then [Achievement.mk "VETERAN" "🎖️" (Some now)] else [])
    ∧ GameState.achievements s'
      = GameState.achievements s ++ CompletionResult.achievementsUnlocked r.
Proof.
  intros H. open_completion H task Hfind Hdone.
  exists task. split; [reflexivity|]. split; [|reflexivity].
  rewrite checkAchievements_rules. unfold rule.
  cbn [Achievement.id FIRST_BLOOD COMBO_MASTER LEGENDARY VETERAN].
  rewrite !negb_has, eqb_decide, !leb_decide.
  reflexivity.
Qed.

(** C9: the accumulated list after a successful call is the old list with
    entries added at its end: every old entry stays at its position,
    unchanged, so none is removed; and when the old list has no two entries
    with the same id, neither has the new one. *)
Theorem achievements_only_grow dateNow taskId tasks s ts r :
  processTaskCompletion dateNow taskId tasks s ts = Some r →
  let old := GameState.achievements s in
  let new := GameState.achievements (CompletionResult.newState r) in
  (∃ added, new = old ++ added)
  ∧ (∀ i a, old !! i = Some a → new !! i = Some a)
  ∧ (∀ a, a ∈ old → a ∈ new)
  ∧ (NoDup (Achievement.id <$> old) → NoDup (Achievement.id <$> new)).
Proof.
  intros H. open_completion H task Hfind Hdone.
  set (st := GameState.mk _ _ _ _ _ _ _).
  set (added := checkAchievements st task _ _).
  split; [by exists added|].
  split; [intros i a Hi; by apply lookup_app_l_Some|].
  split; [intros a Ha; apply elem_of_app; by left|].
  intros Hold. rewrite fmap_app. apply NoDup_app.
  split; [exact Hold|]. split.
  - intros x Hx [a [-> Ha]]%list_elem_of_fmap.
    by apply checkAchievements_fresh in Ha.
  - eapply sublist_NoDup;
      [|apply (fmap_sublist Achievement.id), checkAchievements_sublist].
    cbn. apply (bool_decide_unpack _). by vm_compute.
Qed.

(** ** Combo and award *)

(** C3, as stated, fails: the 13th completion of a chain, of a task worth
    100 XP, is awarded 229 XP, where the floor of 100 * (1 + 13 / 10) is
    230.  The multiplier is the binary64 value of 1.0 + 13 * 0.1, the double
    just below 2.3, and the binary64 product is just below 230. *)
Lemma award_is_not_the_real_floor :
  let r := processTaskCompletion 0 "t1" benchTasks stateTwelve (Some 2000) in
  (Combo.count ∘ GameState.combo ∘ CompletionResult.newState <$> r) = Some 13
  ∧ (CompletionResult.xpGained <$> r) = Some 229
  ∧ awardedXpInReals 100 13 true = 230
  ∧ (CompletionResult.xpGained <$> r) ≠ Some (awardedXpInReals 100 13 true).
Proof. by vm_compute. Qed.

(** C3, amended: whatever the timestamp, a call that returns a result
    chains the combo exactly when the stored last completion time is
    positive and less than 30000 ms before the event (the difference of
    the two times is the binary64 difference when they are safe integers):
    the count is then the stored count plus 1 (for safe integers, where the
    binary64 sum is the sum) and the multiplier the binary64 value of
    1.0 + count' * 0.1;
    otherwise the count is 1, the multiplier 1.0 and the award the XP of
    the task.  A stored time that is zero or negative always resets.  The
    XP reported is Math.floor of the binary64 product of the XP of the task
    and the new multiplier, and it is what is added to the current XP
    before leveling (for safe integers). *)
Theorem combo_and_award dateNow taskId tasks s ts r :
  processTaskCompletion dateNow taskId tasks s ts = Some r →
  let now := default dateNow ts in
  let last := Combo.lastCompletionTime (GameState.combo s) in
  let delta := now - last in
  let count := Combo.count (GameState.combo s) in
  let xp := GameState.currentXp s in
  let threshold := GameState.totalXpNeeded s in
  let s' := CompletionResult.newState r in
  let count' := Combo.count (GameState.combo s') in
  let multiplier' := Combo.multiplier (GameState.combo s') in
  let gain := CompletionResult.xpGained r in
  ∃ task,
    find (isTask taskId) tasks = Some task
    ∧ (if decide (0 < last ∧ delta < 30000)
       then (Num.safe count → Num.safe (count + 1) →
             count' = count + 1 ∧ Num.add count 1 = count + 1)
            ∧ multiplier' = (1.0 + Num.of_Z count' * 0.1)%float
       else count' = 1 ∧ multiplier' = 1.0%float
            ∧ (Num.safe (GameTask.xp task) → gain = GameTask.xp task))
    ∧ (last ≤ 0 → count' = 1 ∧ multiplier' = 1.0%float)
    ∧ Combo.lastCompletionTime (GameState.combo s') = now
    ∧ (Num.safe now → Num.safe last → Num.safe delta →
       Num.sub now last = delta)
    ∧ gain = Num.floor (Num.of_Z (GameTask.xp task) * multiplier')%float
    ∧ (Num.safe xp → Num.safe gain → Num.safe (xp + gain) →
       Num.safe threshold → Num.safe (xp + gain - threshold) →
       Num.add xp gain = xp + gain
       ∧ Num.sub (xp + gain) threshold = xp + gain - threshold
       ∧ GameState.currentXp s'
         = if CompletionResult.leveledUp r
           then xp + gain - threshold else xp + gain).
Proof.
  intros H. open_completion H task Hfind Hdone.
  unfold COMBO_WINDOW_MS.
  exists task. split; [reflexivity|].
  split; [|split; [|split; [reflexivity|split; [|split; [reflexivity|]]]]].
  - case_decide as Hc.
    + destruct Hc as [Hl Hd].
      apply Z.ltb_lt in Hl, Hd. rewrite Hl, Hd. cbn [andb].
      split; [|done]. intros Hcount Hnext. split; [done|by apply add_safe].
    + assert ((default dateNow ts
               - Combo.lastCompletionTime (GameState.combo s) <? 30000)
              && (0 <? Combo.lastCompletionTime (GameState.combo s)) = false)
        as ->.
      { destruct (_ <? 30000) eqn:Hd, (0 <? _) eqn:Hl; cbn; try done.
        apply Z.ltb_lt in Hl, Hd. tauto. }
      split; [done|]. split; [done|]. intros Hxp. by apply floor_mul_one.
  - intros Hle. destruct (0 <? _) eqn:Hl; [apply Z.ltb_lt in Hl; lia|].
    by rewrite andb_false_r.
  - intros Hnow Hlast Hdelta. by apply sub_safe.
  - intros Hxp Hgain Hsum Hthreshold Hrest.
    split; [by apply add_safe|]. split; [by apply sub_safe|].
    by destruct (_ <=? _).
Qed.

(** C10: a supplied timestamp 0 is the event time: the result does not
    depend on the wall clock and the new snapshot stores 0 as the last
    completion time; as 0 is also the value that means no completion yet,
    the next completion from that snapshot resets the combo to count 1 and
    multiplier 1.0, whatever its own timestamp, tasks and clock. *)
Theorem timestamp_zero_is_used dateNow taskId tasks s r :
  processTaskCompletion dateNow taskId tasks s (Some 0) = Some r →
  (∀ dateNow', processTaskCompletion dateNow' taskId tasks s (Some 0) = Some r)
  ∧ Combo.lastCompletionTime (GameState.combo (CompletionResult.newState r)) = 0
  ∧ ∀ dateNow' taskId' tasks' ts' r',
      processTaskCompletion dateNow' taskId' tasks'
        (CompletionResult.newState r) ts' = Some r' →
      Combo.count (GameState.combo (CompletionResult.newState r')) = 1
      ∧ Combo.multiplier (GameState.combo (CompletionResult.newState r')) = 1.0%float
      ∧ CompletionResult.comboTriggered r' = false.
Proof.
  intros H. split; [intros dateNow'; exact H|].
  open_completion H task Hfind Hdone.
  split; [reflexivity|].
  intros dateNow' taskId' tasks' ts' r' H'.
  open_completion H' task' Hfind' Hdone'.
  change (0 <? 0) with false. rewrite andb_false_r. done.
Qed.

(** ** The no-op path *)

Lemma isTask_markCompleted taskId t :
  isTask taskId (markCompleted taskId t) = isTask taskId t.
Proof. unfold markCompleted. by destruct (isTask taskId t) eqn:E. Qed.

Lemma find_markCompleted taskId tasks :
  find (isTask taskId) (markCompleted taskId <$> tasks)
  = GameTask.complete <$> find (isTask taskId) tasks.
Proof.
  induction tasks as [|t tasks IH]; [reflexivity|].
  cbn [fmap list_fmap find]. rewrite isTask_markCompleted.
  destruct (isTask taskId t) eqn:E; [|exact IH].
  unfold markCompleted. by rewrite E.
Qed.

Lemma find_isTask_None taskId tasks :
  find (isTask taskId) tasks = None
  ↔ ∀ t, t ∈ tasks → GameTask.id t ≠ taskId.
Proof.
  induction tasks as [|t tasks IH]; cbn [find].
  - split; [|done]. intros _ t Ht. by apply elem_of_nil in Ht.
  - unfold isTask at 1. destruct (String.eqb_spec (GameTask.id t) taskId) as [E|E].
    + split; [done|]. intros H. exfalso. apply (H t); [left|exact E].
    + rewrite IH. split.
      * intros H t' [->|Ht']%elem_of_cons; auto.
      * intros H t' Ht'. apply H. by right.
Qed.

(** C5: the call returns no result exactly when no task of the list has the
    given id or the task found for it is already completed; the function is
    total, so there is no third outcome; and on the task list returned by a
    successful call, a further call with the same id returns no result,
    whatever snapshot, timestamp and clock it is given. *)
Theorem null_exactly_when_nothing_to_do dateNow taskId tasks s ts :
  (processTaskCompletion dateNow taskId tasks s ts = None
   ↔ (∀ t, t ∈ tasks → GameTask.id t ≠ taskId)
     ∨ ∃ task, find (isTask taskId) tasks = Some task
               ∧ GameTask.completed task = true)
  ∧ ∀ r, processTaskCompletion dateNow taskId tasks s ts = Some r →
      ∀ dateNow' s' ts',
        processTaskCompletion dateNow' taskId (CompletionResult.newTasks r) s' ts'
        = None.
Proof.
  split.
  - rewrite <- find_isTask_None. unfold processTaskCompletion.
    destruct (find _ _) as [task|]; [|by split; [left|]].
    destruct (GameTask.completed task) eqn:Hdone.
    + split; [|done]. intros _. right. by exists task.
    + split; [done|]. intros [?|(task' & [= <-] & ?)]; congruence.
  - intros r H dateNow' s' ts'. open_completion H task Hfind Hdone.
    unfold processTaskCompletion.
    by rewrite find_markCompleted, Hfind.
Qed.

(** ** The result record *)

(** C7, as stated, fails: the XP reported for the 4th completion of a
    chain, of a task worth 45 XP, is 62, where the awarded XP of the
    specification, the floor of 45 * (1 + 4 / 10), is 63. *)
Lemma reported_award_is_not_the_real_floor :
  let r := processTaskCompletion 0 "odd" oddTasks stateThree (Some 2000) in
  (Combo.count ∘ GameState.combo ∘ CompletionResult.newState <$> r) = Some 4
  ∧ (CompletionResult.xpGained <$> r) = Some 62
  ∧ awardedXpInReals 45 4 true = 63
  ∧ (CompletionResult.xpGained <$> r) ≠ Some (awardedXpInReals 45 4 true).
Proof. by vm_compute. Qed.

(** C7, amended: a result carries a snapshot whose completed-task count
    is the old one plus 1, for counts that are safe integers (where the
    binary64 sum is the sum), while a call without result leaves the
    caller's snapshot, and so its count, as it was; [comboTriggered] tells
    whether the new combo count exceeds 1; [xpGained] is Math.floor of the
    binary64 product of the XP of the task and the new multiplier, which is
    the XP of the task when the multiplier is 1.0; and
    [achievementsUnlocked] is what this event added: the new accumulated
    list is the old one followed by it, and none of its ids was in the old
    list. *)
Theorem completion_result_contents dateNow taskId tasks s ts :
  (processTaskCompletion dateNow taskId tasks s ts = None →
   snapshotAfter s (processTaskCompletion dateNow taskId tasks s ts) = s)
  ∧ ∀ r, processTaskCompletion dateNow taskId tasks s ts = Some r →
    let s' := CompletionResult.newState r in
    let done := GameState.completedTasks s in
    snapshotAfter s (processTaskCompletion dateNow taskId tasks s ts) = s'
    ∧ (Num.safe done → Num.safe (done + 1) →
       GameState.completedTasks s' = done + 1 ∧ Num.add done 1 = done + 1)
    ∧ (CompletionResult.comboTriggered r = true
       ↔ 1 < Combo.count (GameState.combo s'))
    ∧ (∃ task, find (isTask taskId) tasks = Some task
         ∧ CompletionResult.xpGained r
           = Num.floor (Num.of_Z (GameTask.xp task)
                        * Combo.multiplier (GameState.combo s'))%float
         ∧ (Combo.multiplier (GameState.combo s') = 1.0%float →
            Num.safe (GameTask.xp task) →
            CompletionResult.xpGained r = GameTask.xp task))
    ∧ GameState.achievements s'
      = GameState.achievements s ++ CompletionResult.achievementsUnlocked r
    ∧ ∀ a, a ∈ CompletionResult.achievementsUnlocked r →
        Achievement.id a ∉ Achievement.id <$> GameState.achievements s.
Proof.
  split; [by intros ->|].
  intros r H. rewrite H. cbn [snapshotAfter from_option].
  open_completion H task Hfind Hdone.
  split; [reflexivity|].
  split; [intros Hcount Hnext; split; [reflexivity|by apply add_safe]|].
  split; [apply Z.ltb_lt|]. split; [|split; [reflexivity|]].
  - exists task. split; [reflexivity|]. split; [reflexivity|].
    intros -> Hxp. by apply floor_mul_one.
  - intros a Ha. by apply checkAchievements_fresh in Ha.
Qed.

(** ** Momentum *)



(** ** Leveling *)

(** C2, as stated, fails: 5000 XP awarded to the initial snapshot crosses
    three levels, and the call performs one level-up. *)
Lemma leveling_is_single_pass :
  (CompletionResult.xpGained <$> bossCompletion) = Some 5000
  ∧ let s' := snapshotAfter createInitialState bossCompletion in
    (GameState.currentXp s', GameState.level s', GameState.totalXpNeeded s')
    = (4000, 2, 1500)
  ∧ levelLoop 3 (GameState.currentXp createInitialState + 5000)
      (GameState.level createInitialState)
      (GameState.totalXpNeeded createInitialState)
    = Some (250, 4, 3375).
Proof. by vm_compute. Qed.

(** C2, amended: leveling is one conditional step.  On safe integers
    (current XP, award and their sum, level and level + 1, threshold with
    3 * threshold below 2^53) the binary64 operations of the source are the
    integer operations, and: if the provisional XP (current XP plus the
    award) reaches the threshold, the threshold is subtracted once, the
    level grows by 1, the threshold becomes floor (threshold * 1.5), which
    is the integer part of 3 * threshold / 2, and [leveledUp] is true;
    otherwise the three are unchanged and [leveledUp] is false.  So
    [leveledUp] tells whether the level grew, and the step agrees with the
    loop whenever what is left after one subtraction is below the new
    threshold. *)
Theorem leveling_one_step dateNow taskId tasks s ts r :
  processTaskCompletion dateNow taskId tasks s ts = Some r →
  safeLeveling s r →
  let s' := CompletionResult.newState r in
  let threshold := GameState.totalXpNeeded s in
  let provisionalXp := GameState.currentXp s + CompletionResult.xpGained r in
  Num.add (GameState.currentXp s) (CompletionResult.xpGained r) = provisionalXp
  ∧ (if decide (threshold ≤ provisionalXp)
     then GameState.currentXp s' = provisionalXp - threshold
          ∧ Num.sub provisionalXp threshold = provisionalXp - threshold
          ∧ GameState.level s' = GameState.level s + 1
          ∧ Num.add (GameState.level s) 1 = GameState.level s + 1
          ∧ GameState.totalXpNeeded s'
            = Num.floor (Num.of_Z threshold * 1.5)%float
          ∧ GameState.totalXpNeeded s' = 3 * threshold / 2
          ∧ CompletionResult.leveledUp r = true
     else GameState.currentXp s' = provisionalXp
          ∧ GameState.level s' = GameState.level s
          ∧ GameState.totalXpNeeded s' = threshold
          ∧ CompletionResult.leveledUp r = false)
  ∧ (CompletionResult.leveledUp r = true ↔ GameState.level s' = GameState.level s + 1)
  ∧ (provisionalXp - threshold < getNextLevelThreshold threshold →
     levelLoop 1 provisionalXp (GameState.level s) threshold
     = Some (GameState.currentXp s', GameState.level s', GameState.totalXpNeeded s')).
Proof.
  intros H (Hxp & Hgain & Hsum & Hlevel & Hnext & Hpos & Htriple).
  open_completion H task Hfind Hdone.
  set (finalXp := Num.floor _) in *.
  cbn [CompletionResult.xpGained] in Hgain, Hsum.
  split; [by apply add_safe|]. split; [|split].
  - case_decide as Hc.
    + pose proof Hc as Hc'. apply Z.leb_le in Hc'. rewrite Hc'.
      split; [done|].
      split; [apply sub_safe; unfold Num.safe in *; lia|].
      split; [done|]. split; [by apply add_safe|]. split; [done|].
      split; [by apply floor_mul_three_halves|done].
    + apply Z.leb_nle in Hc. by rewrite Hc.
  - destruct (_ <=? _); split; try done; lia.
  - intros Hone. cbn [levelLoop].
    destruct (_ <=? _ + _) eqn:Hc; [|reflexivity].
    by rewrite (proj2 (Z.leb_nle _ _)) by lia.
Qed.

(** ** Signs in binary64 *)

Section Signs.
Import Num.

Lemma binary_round_aux_nonneg mx ex lx :
  sf_nonneg (binary_round_aux prec emax false mx ex lx).
Proof.
  unfold binary_round_aux.
  destruct (shr_fexp _ _ mx ex lx) as [mrs' e'].
  destruct (shr_fexp _ _ _ e' loc_Exact) as [mrs'' e''].
  destruct (shr_m mrs''); [done| |done]. by destruct (_ <=? _).
Qed.

Lemma binary_round_nonneg mx ex : sf_nonneg (binary_round prec emax false mx ex).
Proof.
  unfold binary_round. destruct (shl_align _ _ _).
  apply binary_round_aux_nonneg.
Qed.

Lemma binary_normalize_nonneg z e :
  0 ≤ z → sf_nonneg (binary_normalize prec emax z e false).
Proof.
  destruct z; [done| |lia]. intros _. apply binary_round_nonneg.
Qed.

Lemma SFmul_nonneg x y :
  sf_nonneg x → sf_nonneg y → sf_nonneg (SF64mul x y).
Proof.
  destruct x as [[]|[]| |[] mx ex], y as [[]|[]| |[] my ey]; try done.
  intros _ _. apply binary_round_aux_nonneg.
Qed.

Lemma SFadd_nonneg x y :
  sf_nonneg x → sf_nonneg y → sf_nonneg (SF64add x y).
Proof.
  destruct x as [[]|[]| |[] mx ex], y as [[]|[]| |[] my ey]; try done.
  intros _ _. apply binary_normalize_nonneg. cbn [cond_Zopp]. lia.
Qed.

Lemma SFldexp_nonneg x e : sf_nonneg x → sf_nonneg (SFldexp prec emax x e).
Proof.
  destruct x as [| | |[] mx ex]; try done.
  intros _. apply binary_round_nonneg.
Qed.

Lemma mul_nonneg x y : nonneg x → nonneg y → nonneg (x * y).
Proof. unfold nonneg. rewrite mul_spec. apply SFmul_nonneg. Qed.

Lemma add_nonneg x y : nonneg x → nonneg y → nonneg (x + y).
Proof. unfold nonneg. rewrite add_spec. apply SFadd_nonneg. Qed.

Lemma of_Z_nonneg z : 0 ≤ z → nonneg (Num.of_Z z).
Proof.
  intros Hz. unfold Num.of_Z.
  pose proof (binary_normalize_nonneg z 0 Hz) as Hn.
  destruct (binary_normalize prec emax z 0 false) as [[]|[]| |[] m e];
    try done; try by vm_compute.
  unfold nonneg, SF2Prim, Z.ldexp.
  rewrite ldshiftexp_spec. apply SFldexp_nonneg.
  rewrite of_uint63_spec. apply binary_normalize_nonneg.
  apply Uint63.to_Z_bounded.
Qed.

Lemma floor_nonneg f : nonneg f → 0 ≤ Num.floor f.
Proof.
  unfold nonneg, Num.floor.
  destruct (Prim2SF f) as [| | |[] m e]; try done. intros _.
  destruct (0 <=? e) eqn:He.
  - apply Z.leb_le in He. apply Z.mul_nonneg_nonneg; [lia|].
    by apply Z.pow_nonneg.
  - apply Z.leb_nle in He. apply Z.div_pos; [lia|].
    apply Z.pow_pos_nonneg; lia.
Qed.

End Signs.

(** ** The XP range *)

(** C1, as stated, fails: the snapshot after the 5000 XP completion is
    reachable and holds 4000 XP against a threshold of 1500. *)
Lemma xp_range_broken_by_large_award :
  let s := snapshotAfter createInitialState bossCompletion in
  reachable s
  ∧ GameState.currentXp s = 4000
  ∧ GameState.totalXpNeeded s = 1500
  ∧ ¬ (0 ≤ GameState.currentXp s < GameState.totalXpNeeded s).
Proof.
  destruct bossCompletion as [r|] eqn:Hr; [|by vm_compute in Hr].
  cbn [snapshotAfter from_option]. split.
  - eapply reach_completion with (tasks := bossTasks);
      [apply reach_initial| | |exact Hr|exact I].
    + apply (bool_decide_unpack _). by vm_compute.
    + repeat constructor.
  - vm_compute in Hr. injection Hr as <-. cbn. repeat split; lia.
Qed.

Lemma award_nonneg dateNow taskId tasks s ts r :
  Forall (λ t, 0 < GameTask.xp t) tasks →
  0 ≤ Combo.count (GameState.combo s) →
  processTaskCompletion dateNow taskId tasks s ts = Some r →
  0 ≤ CompletionResult.xpGained r.
Proof.
  intros Hxp Hcount H. open_completion H task Hfind Hdone.
  apply find_some in Hfind as [Hin _].
  rewrite Forall_forall in Hxp. apply list_elem_of_In, Hxp in Hin.
  apply floor_nonneg, mul_nonneg; [apply of_Z_nonneg; lia|].
  destruct (_ && _); [|by vm_compute].
  apply add_nonneg; [by vm_compute|].
  apply mul_nonneg; [apply of_Z_nonneg; lia|by vm_compute].
Qed.

Lemma combo_count_positive dateNow taskId tasks s ts r :
  0 ≤ Combo.count (GameState.combo s) →
  processTaskCompletion dateNow taskId tasks s ts = Some r →
  0 < Combo.count (GameState.combo (CompletionResult.newState r)).
Proof.
  intros Hcount H. open_completion H task Hfind Hdone.
  destruct (_ && _); lia.
Qed.

(** One call keeps the XP in range when its award is at most the next
    threshold: without level-up the sum stays below the threshold, and with
    a level-up what is left is less than the award, as the XP was below the
    threshold before. *)
Lemma xp_range_step dateNow taskId tasks s ts r :
  0 ≤ GameState.currentXp s < GameState.totalXpNeeded s →
  0 ≤ CompletionResult.xpGained r →
  processTaskCompletion dateNow taskId tasks s ts = Some r →
  awardWithinNextThreshold s r →
  let s' := CompletionResult.newState r in
  0 ≤ GameState.currentXp s' < GameState.totalXpNeeded s'.
Proof.
  intros Hs Hgain H. unfold awardWithinNextThreshold.
  open_completion H task Hfind Hdone.
  set (finalXp := Num.floor _) in *. cbn in Hgain. intros Hfit.
  destruct (Z.leb_spec (GameState.totalXpNeeded s) (GameState.currentXp s + finalXp));
    lia.
Qed.

(** C1, amended: every snapshot reached from [createInitialState] by calls
    that return a result (tasks with positive XP values and unique ids),
    the award of each call being at most the next threshold,
    floor (threshold * 1.5), and the integers of each call being safe
    integers (the sums are then those of the source), has its current XP at
    least 0 and below the threshold.  A call performs at most one level-up,
    so a larger award is outside this statement. *)
Theorem xp_in_range_when_awards_fit s :
  reachableBy safeAndWithinNextThreshold s →
  0 ≤ GameState.currentXp s < GameState.totalXpNeeded s.
Proof.
  intros Hreach.
  enough (0 ≤ GameState.currentXp s < GameState.totalXpNeeded s
          ∧ 0 ≤ Combo.count (GameState.combo s)) by tauto.
  induction Hreach
    as [|s dateNow taskId tasks ts r _ [IHxp IHcount] _ Hxp Hcall [_ Hok]].
  - cbn. lia.
  - split.
    + eapply xp_range_step; eauto using award_nonneg.
    + apply Z.lt_le_incl. eauto using combo_count_positive.
Qed.

(** ** Reasoning about heap computations *)

Section HeapReasoning.
Import Heap.

Lemma wp_ret {A} (a : A) h Q : Q a h → wp (ret a) h Q.
Proof. done. Qed.

Lemma wp_bind {A B} (m : M A) (f : A → M B) h Q :
  wp m h (λ a h', wp (f a) h' Q) → wp (bind m f) h Q.
Proof. unfold wp, bind. by destruct (m h) as [[a h']|]. Qed.

Lemma wp_read {A} (at_ : heap → loc → option A) l h a Q :
  at_ h l = Some a → Q a h → wp (read at_ l) h Q.
Proof. intros Hl HQ. unfold wp, read. by rewrite Hl. Qed.

(** Allocation, for a client that does not update the new cell. *)
Lemma wp_alloc c h Q :
  (∀ l h', h `prefix_of` h' → h' !! l = Some c → Q l h') → wp (alloc c) h Q.
Proof.
  intros HQ. unfold wp, alloc. apply HQ; [by apply prefix_app_r|].
  by apply list_lookup_middle.
Qed.

(** What a reference stands for in a heap, it stands for in every
    extension of the heap. *)
Local Ltac at_mono Hp :=
  lazymatch type of Hp with
  | ?h `prefix_of` _ =>
      lazymatch goal with
      | |- context [h !! ?l] =>
          let Hl := fresh in
          destruct (h !! l) eqn:Hl; [|done];
          rewrite (prefix_lookup_Some _ _ _ _ Hl Hp)
      end
  end.

Lemma taskAt_mono h h' l t :
  h `prefix_of` h' → taskAt h l = Some t → taskAt h' l = Some t.
Proof.
  unfold taskAt. intros Hp. by at_mono Hp.
Qed.

Lemma taskArrAt_mono h h' l e :
  h `prefix_of` h' → taskArrAt h l = Some e → taskArrAt h' l = Some e.
Proof.
  unfold taskArrAt. intros Hp. by at_mono Hp.
Qed.

Lemma numArrAt_mono h h' l e :
  h `prefix_of` h' → numArrAt h l = Some e → numArrAt h' l = Some e.
Proof.
  unfold numArrAt. intros Hp. by at_mono Hp.
Qed.

Lemma achAt_mono h h' l a :
  h `prefix_of` h' → achAt h l = Some a → achAt h' l = Some a.
Proof.
  unfold achAt. intros Hp. by at_mono Hp.
Qed.

Lemma achArrAt_mono h h' l e :
  h `prefix_of` h' → achArrAt h l = Some e → achArrAt h' l = Some e.
Proof.
  unfold achArrAt. intros Hp. by at_mono Hp.
Qed.

Lemma comboAt_mono h h' l c :
  h `prefix_of` h' → comboAt h l = Some c → comboAt h' l = Some c.
Proof.
  unfold comboAt. intros Hp. by at_mono Hp.
Qed.

Lemma stateObjAt_mono h h' l st :
  h `prefix_of` h' → stateObjAt h l = Some st → stateObjAt h' l = Some st.
Proof.
  unfold stateObjAt. intros Hp. by at_mono Hp.
Qed.

Lemma mapM_mono {A} (at_ : heap → loc → option A) h h' elems vs :
  (∀ l a, at_ h l = Some a → at_ h' l = Some a) →
  mapM (at_ h) elems = Some vs → mapM (at_ h') elems = Some vs.
Proof.
  intros Hat. rewrite !mapM_Some. intros H.
  eapply Forall2_impl; [exact H|exact Hat].
Qed.


Lemma achievementsAt_mono h h' l achs :
  h `prefix_of` h' →
  achievementsAt h l = Some achs → achievementsAt h' l = Some achs.
Proof.
  unfold achievementsAt. intros Hp.
  destruct (achArrAt h l) as [e|] eqn:He; [|done].
  rewrite (achArrAt_mono _ _ _ _ Hp He).
  apply mapM_mono. intros ? ?. by apply achAt_mono.
Qed.


(** Allocation and update, with the reference and the heap they give. *)
Lemma wp_alloc_at c h Q : Q (length h) (h ++ [c]) → wp (alloc c) h Q.
Proof. done. Qed.

Lemma wp_write l c h Q :
  (l < length h)%nat → Q () (<[l := c]> h) → wp (write l c) h Q.
Proof. intros Hl HQ. unfold wp, write. by rewrite decide_True. Qed.

Lemma insert_at_end (h : heap) c c' k :
  <[length h := c']> (h ++ c :: k) = h ++ c' :: k.
Proof. by rewrite insert_app_r_alt, Nat.sub_diag. Qed.

(** *** The operations of the engine *)

Lemma find_wp taskId elems (tasks : list GameTask.t) h Q :
  mapM (taskAt h) elems = Some tasks →
  (∀ found,
     match found with
     | None => List.find (isTask taskId) tasks = None
     | Some l => ∃ t, taskAt h l = Some t
                      ∧ List.find (isTask taskId) tasks = Some t
     end → Q found h) →
  wp (HeapEngine.find taskId elems) h Q.
Proof.
  rewrite mapM_Some. intros H HQ.
  induction H as [|l t elems tasks Hl _ IH]; cbn [HeapEngine.find List.find].
  - by apply wp_ret, HQ.
  - apply wp_bind. eapply wp_read; [exact Hl|].
    cbn [List.find] in HQ. destruct (isTask taskId t) eqn:E.
    + apply wp_ret, HQ. by exists t.
    + apply IH, HQ.
Qed.


Lemma calculateMomentum_wp history xpGain elems h Q :
  numArrAt h history = Some elems →
  (∀ l h', h `prefix_of` h' →
           numArrAt h' l = Some (IncentiveEngine.calculateMomentum elems xpGain) →
           Q l h') →
  wp (HeapEngine.calculateMomentum history xpGain) h Q.
Proof.
  intros He HQ. unfold HeapEngine.calculateMomentum.
  apply wp_bind. eapply wp_read; [exact He|].
  apply wp_bind, wp_alloc_at.
  apply wp_bind. eapply wp_read.
  { unfold numArrAt. by rewrite list_lookup_middle. }
  apply wp_bind. unfold IncentiveEngine.calculateMomentum in HQ.
  destruct (decide _).
  - apply wp_write; [rewrite length_app; cbn; lia|].
    apply wp_ret. rewrite insert_at_end. apply HQ; [by apply prefix_app_r|].
    unfold numArrAt. by rewrite list_lookup_middle.
  - do 2 apply wp_ret. apply HQ; [by apply prefix_app_r|].
    unfold numArrAt. by rewrite list_lookup_middle.
Qed.

Lemma ids_wp elems (achs : list Achievement.t) h Q :
  mapM (achAt h) elems = Some achs →
  Q (Achievement.id <$> achs) h →
  wp (HeapEngine.ids elems) h Q.
Proof.
  rewrite mapM_Some. intros H. revert Q.
  induction H as [|l a elems achs Hl _ IH]; intros Q HQ; cbn [HeapEngine.ids].
  - by apply wp_ret.
  - apply wp_bind. eapply wp_read; [exact Hl|].
    apply wp_bind, IH. by apply wp_ret.
Qed.

Lemma unlocking_prefix h0 h unlocked : unlocking h0 h unlocked → h0 `prefix_of` h.
Proof. intros (elems & objs & -> & _). by apply prefix_app_r. Qed.

Lemma unlocking_achievementsAt h0 h unlocked :
  unlocking h0 h unlocked → achievementsAt h (length h0) = Some unlocked.
Proof.
  intros (elems & objs & -> & H). unfold achievementsAt, achArrAt.
  by rewrite list_lookup_middle.
Qed.

Lemma pushIf_wp h0 cond a h unlocked Q :
  unlocking h0 h unlocked →
  (∀ h', unlocking h0 h' (IncentiveEngine.pushIf cond a unlocked) → Q () h') →
  wp (HeapEngine.pushIf cond a (length h0)) h Q.
Proof.
  intros (elems & objs & -> & H) HQ.
  unfold HeapEngine.pushIf, IncentiveEngine.pushIf in *.
  destruct cond; [|apply wp_ret, HQ; by exists elems, objs].
  apply wp_bind, wp_alloc_at.
  apply wp_bind. eapply wp_read.
  { unfold achArrAt. rewrite <- app_assoc, <- app_comm_cons.
    by rewrite list_lookup_middle. }
  rewrite <- app_assoc, <- app_comm_cons.
  apply wp_write; [rewrite length_app; cbn; lia|].
  rewrite insert_at_end. apply HQ.
  eexists _, _. split; [reflexivity|].
  apply mapM_Some, Forall2_app.
  - apply mapM_Some in H. eapply Forall2_impl; [exact H|].
    intros l x. unfold achAt. rewrite !lookup_app.
    destruct (h0 !! l); [done|]. rewrite !lookup_cons.
    destruct (l - length h0)%nat as [|n]; [done|].
    rewrite lookup_app. by destruct (objs !! n).
  - constructor; [|constructor]. unfold achAt.
    rewrite app_comm_cons, app_assoc.
    erewrite list_lookup_middle; [done|]. by rewrite !length_app.
Qed.

(** Carries what is known of a heap over to an extension of it. *)
Local Ltac lift_to Hp :=
  lazymatch type of Hp with
  | ?h `prefix_of` ?h' =>
    repeat match goal with
    | F : taskAt h _ = Some _ |- _ => apply (taskAt_mono _ _ _ _ Hp) in F
    | F : taskArrAt h _ = Some _ |- _ => apply (taskArrAt_mono _ _ _ _ Hp) in F
    | F : numArrAt h _ = Some _ |- _ => apply (numArrAt_mono _ _ _ _ Hp) in F
    | F : achAt h _ = Some _ |- _ => apply (achAt_mono _ _ _ _ Hp) in F
    | F : achArrAt h _ = Some _ |- _ => apply (achArrAt_mono _ _ _ _ Hp) in F
    | F : comboAt h _ = Some _ |- _ => apply (comboAt_mono _ _ _ _ Hp) in F
    | F : stateObjAt h _ = Some _ |- _ => apply (stateObjAt_mono _ _ _ _ Hp) in F
    | F : achievementsAt h _ = Some _ |- _ =>
        apply (achievementsAt_mono _ _ _ _ Hp) in F
    | F : mapM (taskAt h) _ = Some _ |- _ =>
        apply (mapM_mono taskAt h h' _ _ (λ l a, taskAt_mono h h' l a Hp)) in F
    | F : mapM (achAt h) _ = Some _ |- _ =>
        apply (mapM_mono achAt h h' _ _ (λ l a, achAt_mono h h' l a Hp)) in F
    | F : _ `prefix_of` h |- _ => apply (λ F', transitivity F' Hp) in F
    end
  end.

Local Ltac wp_read_with F := apply wp_bind; eapply wp_read; [exact F|].

Local Ltac wp_read_from Hp F :=
  apply wp_bind; eapply wp_read;
  [first [eapply taskAt_mono|eapply stateObjAt_mono|eapply comboAt_mono
         |eapply achArrAt_mono|eapply numArrAt_mono];
   [exact Hp|exact F]|].

Lemma checkAchievements_wp state task isFirstTask timestamp h s t Q :
  stateAt h state = Some s →
  taskAt h task = Some t →
  (∀ l h', h `prefix_of` h' →
     achievementsAt h' l
     = Some (IncentiveEngine.checkAchievements s t isFirstTask timestamp) →
     Q l h') →
  wp (HeapEngine.checkAchievements state task isFirstTask timestamp) h Q.
Proof.
  intros Hs Ht HQ. unfold stateAt in Hs.
  destruct (stateObjAt h state) as [st|] eqn:Hst; [|done].
  destruct (numArrAt h _) as [m|] eqn:Hm; [|done].
  destruct (comboAt h _) as [c|] eqn:Hc; [|done].
  destruct (achievementsAt h _) as [achs|] eqn:Ha; [|done].
  injection Hs as <-. unfold achievementsAt in Ha.
  destruct (achArrAt h _) as [ae|] eqn:Hae; [|done].
  unfold HeapEngine.checkAchievements.
  apply wp_bind, wp_alloc_at.
  assert (Hinv : unlocking h (h ++ [AchArr []]) []) by (by exists [], []).
  revert Hinv. generalize (h ++ [AchArr []]). intros h1 Hinv.
  pose proof (unlocking_prefix _ _ _ Hinv) as Hp.
  wp_read_from Hp Hst. wp_read_from Hp Hae.
  apply wp_bind. eapply ids_wp.
  { eapply mapM_mono; [|exact Ha]. intros ? ?. by apply achAt_mono. }
  apply wp_bind. eapply pushIf_wp; [exact Hinv|].
  clear h1 Hinv Hp. intros h1 Hinv.
  pose proof (unlocking_prefix _ _ _ Hinv) as Hp.
  wp_read_from Hp Hst. wp_read_from Hp Hc.
  apply wp_bind. eapply pushIf_wp; [exact Hinv|].
  clear h1 Hinv Hp. intros h1 Hinv.
  pose proof (unlocking_prefix _ _ _ Hinv) as Hp.
  wp_read_from Hp Ht.
  apply wp_bind. eapply pushIf_wp; [exact Hinv|].
  clear h1 Hinv Hp. intros h1 Hinv.
  pose proof (unlocking_prefix _ _ _ Hinv) as Hp.
  wp_read_from Hp Hst.
  apply wp_bind. eapply pushIf_wp; [exact Hinv|].
  clear h1 Hinv Hp. intros h1 Hinv.
  apply wp_ret, HQ; [by eapply unlocking_prefix|].
  by eapply unlocking_achievementsAt.
Qed.

(** [createInitialState()] on the heap allocates the initial snapshot and
    touches nothing else. *)
Lemma createInitialState_wp h Q :
  (∀ l h', h `prefix_of` h' →
           stateAt h' l = Some IncentiveEngine.createInitialState → Q l h') →
  wp HeapEngine.createInitialState h Q.
Proof.
  intros HQ. unfold HeapEngine.createInitialState.
  set (h0 := h) in HQ. assert (Hbase : h0 `prefix_of` h) by done. clearbody h0.
  apply wp_bind, wp_alloc. intros m h1 Hp Hm.
  assert (numArrAt h1 m = Some [0; 100; 150; 120; 200]%float)
    by (unfold numArrAt; by rewrite Hm).
  lift_to Hp. clear h Hp Hm.
  apply wp_bind, wp_alloc. intros c h Hp Hc.
  match type of Hc with
  | _ = Some (ComboObj ?x) =>
      assert (comboAt h c = Some x) by (unfold comboAt; by rewrite Hc)
  end.
  lift_to Hp. clear h1 Hp Hc.
  apply wp_bind, wp_alloc. intros a h1 Hp Ha.
  assert (achievementsAt h1 a = Some [])
    by (unfold achievementsAt, achArrAt; by rewrite Ha).
  lift_to Hp. clear h Hp Ha.
  apply wp_alloc. intros l h Hp Hl. lift_to Hp.
  apply HQ; [done|]. unfold stateAt, stateObjAt. rewrite Hl.
  cbn [momentum combo achievements level currentXp totalXpNeeded completedTasks].
  by repeat match goal with F : _ = Some _ |- _ => rewrite F end.
Qed.


End HeapReasoning.

(** With unique ids, marking the tasks that have the id changes one
    position of the list: that of the task [find] returns. *)
Lemma markCompleted_unique taskId tasks task :
  NoDup (GameTask.id <$> tasks) →
  find (isTask taskId) tasks = Some task →
  ∃ i, tasks !! i = Some task
       ∧ markCompleted taskId <$> tasks = <[i := GameTask.complete task]> tasks.
Proof.
  induction tasks as [|t tasks IH]; [done|].
  rewrite fmap_cons, NoDup_cons. intros [Hfresh Hnodup].
  cbn [find fmap list_fmap]. unfold markCompleted at 1.
  destruct (isTask taskId t) eqn:E.
  - intros [= <-]. exists 0%nat. split; [done|]. cbn [insert list_insert].
    f_equal. rewrite <- (list_fmap_id tasks) at 2.
    apply list_fmap_ext. intros i t' Ht'. unfold markCompleted.
    destruct (isTask taskId t') eqn:E'; [|done].
    apply String.eqb_eq in E, E'. exfalso. apply Hfresh.
    rewrite E, <- E'. apply list_elem_of_fmap_2, list_elem_of_lookup. eauto.
  - intros Hfind. destruct (IH Hnodup Hfind) as (i & Hi & Heq).
    exists (Datatypes.S i). split; [done|]. cbn [insert list_insert]. by f_equal.
Qed.

(** ** Inputs and outputs on the heap *)

(** The copy that [markCompleted] makes has the flag set, and nothing else
    changed. *)
Lemma completedCopy_complete t : completedCopy t (GameTask.complete t).
Proof. by repeat split. Qed.




(** ** The engine at work *)

Example scenario_A :
  scenarioA = Some
    {| CompletionResult.newState := stateA;
       CompletionResult.newTasks := tasksA;
       CompletionResult.leveledUp := false;
       CompletionResult.xpGained := 100;
       CompletionResult.achievementsUnlocked := [FIRST_BLOOD 1000];
       CompletionResult.comboTriggered := false |}
  ∧ GameState.currentXp stateA = 100.
Proof. by vm_compute. Qed.

Example scenario_B :
  (CompletionResult.xpGained <$> scenarioB) = Some 120
  ∧ (CompletionResult.comboTriggered <$> scenarioB) = Some true
  ∧ GameState.combo stateB
    = {| Combo.count := 2; Combo.multiplier := 1.2%float;
         Combo.lastCompletionTime := 6000 |}
  ∧ GameState.currentXp stateB = 220.
Proof. by vm_compute. Qed.

Example scenario_C :
  (CompletionResult.comboTriggered <$> scenarioC) = Some false
  ∧ (GameState.combo ∘ CompletionResult.newState <$> scenarioC)
    = Some {| Combo.count := 1; Combo.multiplier := 1.0%float;
              Combo.lastCompletionTime := 40000 |}.
Proof. by vm_compute. Qed.

Example scenario_D :
  (CompletionResult.leveledUp <$> scenarioD) = Some true
  ∧ let s' := snapshotAfter stateD scenarioD in
    (GameState.level s', GameState.currentXp s', GameState.totalXpNeeded s')
    = (2, 50, 1500).
Proof. by vm_compute. Qed.

Example scenario_E :
  (CompletionResult.achievementsUnlocked <$> scenarioE)
  = Some [FIRST_BLOOD 1000; LEGENDARY 1000].
Proof. by vm_compute. Qed.

Example scenario_F :
  processTaskCompletion 0 "missing" benchTasks createInitialState (Some 1000) = None.
Proof. by vm_compute. Qed.

(** All four achievements in one event. *)
Example four_unlocks_at_once :
  (CompletionResult.achievementsUnlocked
     <$> processTaskCompletion 0 "t4" benchTasks stateVerge (Some 1000))
  = Some [FIRST_BLOOD 1000; COMBO_MASTER 1000; LEGENDARY 1000; VETERAN 1000].
Proof. by vm_compute. Qed.

(** A timestamp earlier than the stored one gives a negative difference,
    which is below the window: the combo is chained. *)
Example earlier_timestamp_chains :
  (Combo.count ∘ GameState.combo ∘ CompletionResult.newState
     <$> processTaskCompletion 0 "t2" tasksA stateA (Some 10))
  = Some 2.
Proof. by vm_compute. Qed.

(** The thresholds of the first levels: each is the floor of one and a
    half times the one before. *)
Example first_thresholds :
  getNextLevelThreshold <$> [1000; 1500; 2250; 3375] = [1500; 2250; 3375; 5062].
Proof. by vm_compute. Qed.

(** The products are binary64 products: 1.0 + 4 * 0.1 is the double just
    below 1.4, and 45 times it rounds to the double just below 63. *)
Example award_is_binary64 :
  Num.floor (Num.of_Z 45 * (1.0 + Num.of_Z 4 * 0.1))%float = 62.
Proof. by vm_compute. Qed.

(** *** Instances of the theorems *)

Lemma xp_in_range_witness :
  ∃ r, scenarioG = Some r
    ∧ CompletionResult.leveledUp r = true
    ∧ 0 ≤ GameState.currentXp (CompletionResult.newState r)
      < GameState.totalXpNeeded (CompletionResult.newState r).
Proof.
  destruct scenarioG as [r|] eqn:Hr; [|by vm_compute in Hr].
  exists r. split; [reflexivity|].
  split; [vm_compute in Hr; by injection Hr as <-|].
  apply xp_in_range_when_awards_fit.
  eapply reach_completion with (tasks := tasksE) (s := stateE);
    [| | |exact Hr|].
  - unfold stateE.
    destruct scenarioE as [rE|] eqn:HE; [|by vm_compute in HE].
    cbn [snapshotAfter from_option].
    eapply reach_completion with (tasks := benchTasks);
      [apply reach_initial| | |exact HE|].
    + apply (bool_decide_unpack _). by vm_compute.
    + repeat constructor.
    + vm_compute in HE. injection HE as <-.
      unfold safeAndWithinNextThreshold, safeCompletion. by vm_compute.
  - apply (bool_decide_unpack _). by vm_compute.
  - apply (bool_decide_unpack _). by vm_compute.
  - vm_compute in Hr. injection Hr as <-.
    unfold safeAndWithinNextThreshold, safeCompletion. by vm_compute.
Defined.

Lemma leveling_one_step_witness :
  ∃ r, scenarioD = Some r
    ∧ safeLeveling stateD r
    ∧ CompletionResult.leveledUp r = true
    ∧ GameState.level (CompletionResult.newState r) = 2
    ∧ GameState.totalXpNeeded (CompletionResult.newState r) = 1500.
Proof.
  destruct scenarioD as [r|] eqn:Hr; [|by vm_compute in Hr].
  exists r.
  assert (Hsafe : safeLeveling stateD r).
  { pose proof Hr as Hgain. vm_compute in Hgain. injection Hgain as <-.
    by vm_compute. }
  split; [reflexivity|]. split; [exact Hsafe|].
  destruct (leveling_one_step _ _ _ _ _ _ Hr Hsafe) as (_ & Hstep & _ & _).
  pose proof Hr as Hgain. vm_compute in Hgain. injection Hgain as <-.
  cbn [CompletionResult.xpGained CompletionResult.newState
       CompletionResult.leveledUp GameState.level GameState.totalXpNeeded
       GameState.currentXp stateD] in Hstep.
  rewrite decide_True in Hstep by lia.
  destruct Hstep as (_ & _ & Hlevel & _ & _ & Hthreshold & Hup).
  done.
Defined.

Lemma combo_and_award_witness :
  ∃ r, scenarioB = Some r
    ∧ Combo.count (GameState.combo (CompletionResult.newState r)) = 2
    ∧ Combo.lastCompletionTime (GameState.combo (CompletionResult.newState r))
      = 6000.
Proof.
  destruct scenarioB as [r|] eqn:Hr; [|by vm_compute in Hr].
  exists r. split; [reflexivity|].
  destruct (combo_and_award _ _ _ _ _ _ Hr) as (task & _ & Hchain & _ & Hlast & _).
  split; [|exact Hlast].
  vm_compute in Hchain. destruct Hchain as [Hcount _].
  exact (proj1 (Hcount (conj eq_refl eq_refl) (conj eq_refl eq_refl))).
Defined.

Lemma four_achievement_rules_witness :
  ∃ r, scenarioE = Some r
    ∧ GameState.achievements (CompletionResult.newState r)
      = GameState.achievements createInitialState
        ++ CompletionResult.achievementsUnlocked r.
Proof.
  destruct scenarioE as [r|] eqn:Hr; [|by vm_compute in Hr].
  exists r. split; [reflexivity|].
  destruct (four_achievement_rules _ _ _ _ _ _ Hr) as (task & _ & _ & Hall).
  exact Hall.
Defined.

Lemma null_exactly_when_nothing_to_do_witness :
  ∃ r, scenarioA = Some r
    ∧ processTaskCompletion 5 "t1" (CompletionResult.newTasks r) stateA (Some 2000)
      = None.
Proof.
  destruct scenarioA as [r|] eqn:Hr; [|by vm_compute in Hr].
  exists r. split; [reflexivity|].
  exact (proj2 (null_exactly_when_nothing_to_do 0 "t1" benchTasks
                  createInitialState (Some 1000)) r Hr 5 stateA (Some 2000)).
Defined.


Lemma completion_result_contents_witness :
  ∃ r, scenarioA = Some r
    ∧ GameState.completedTasks (CompletionResult.newState r) = 1.
Proof.
  destruct scenarioA as [r|] eqn:Hr; [|by vm_compute in Hr].
  exists r. split; [reflexivity|].
  destruct (proj2 (completion_result_contents 0 "t1" benchTasks
                     createInitialState (Some 1000)) r Hr) as (_ & Hcount & _).
  apply Hcount; by vm_compute.
Defined.


Lemma achievements_only_grow_witness :
  NoDup (Achievement.id <$> GameState.achievements stateA)
  ∧ ∃ r, scenarioB = Some r
      ∧ NoDup (Achievement.id
                 <$> GameState.achievements (CompletionResult.newState r)).
Proof.
  assert (Hold : NoDup (Achievement.id <$> GameState.achievements stateA))
    by (apply (bool_decide_unpack _); by vm_compute).
  split; [exact Hold|].
  destruct scenarioB as [r|] eqn:Hr; [|by vm_compute in Hr].
  exists r. split; [reflexivity|].
  exact (proj2 (proj2 (proj2 (achievements_only_grow _ _ _ _ _ _ Hr))) Hold).
Defined.

Lemma timestamp_zero_is_used_witness :
  ∃ r, scenarioZero = Some r
    ∧ Combo.lastCompletionTime (GameState.combo (CompletionResult.newState r)) = 0.
Proof.
  destruct scenarioZero as [r|] eqn:Hr; [|by vm_compute in Hr].
  exists r. split; [reflexivity|].
  exact (proj1 (proj2 (timestamp_zero_is_used _ _ _ _ _ Hr))).
Defined.

(** * Further properties of the engine *)

(** ** What a completion unlocks *)

Lemma elem_of_checkAchievements state task isFirstTask timestamp a :
  a ∈ checkAchievements state task isFirstTask timestamp
  ↔ (a = FIRST_BLOOD timestamp ∧ isFirstTask = true
       ∧ has (currentIds state) "FIRST_BLOOD" = false)
    ∨ (a = COMBO_MASTER timestamp
       ∧ (3 <=? Combo.count (GameState.combo state)) = true
       ∧ has (currentIds state) "COMBO_MASTER" = false)
    ∨ (a = LEGENDARY timestamp
       ∧ bool_decide (GameTask.difficulty task = Rank_S) = true
       ∧ has (currentIds state) "LEGENDARY" = false)
    ∨ (a = VETERAN timestamp ∧ (3 <=? GameState.level state) = true
       ∧ has (currentIds state) "VETERAN" = false).
Proof.
  rewrite checkAchievements_rules, !elem_of_app, !elem_of_rule. reflexivity.
Qed.

(** What [checkAchievements] is applied to in a successful call, and what
    becomes of its result. *)
Lemma completion_unlocks dateNow taskId tasks s ts r :
  processTaskCompletion dateNow taskId tasks s ts = Some r →
  ∃ task st,
    find (isTask taskId) tasks = Some task
    ∧ GameTask.completed task = false
    ∧ CompletionResult.achievementsUnlocked r
      = checkAchievements st task (GameState.completedTasks s =? 0)
          (default dateNow ts)
    ∧ GameState.achievements st = GameState.achievements s
    ∧ GameState.level st = GameState.level (CompletionResult.newState r)
    ∧ GameState.combo st = GameState.combo (CompletionResult.newState r)
    ∧ GameState.achievements (CompletionResult.newState r)
      = GameState.achievements s ++ CompletionResult.achievementsUnlocked r.
Proof.
  intros H. open_completion H task Hfind Hdone.
  by eexists task, _.
Qed.

Lemma has_of_state st s x :
  GameState.achievements st = GameState.achievements s →
  has (currentIds st) x = true ↔ x ∈ Achievement.id <$> GameState.achievements s.
Proof. intros <-. apply has_currentIds. Qed.

(** After a successful call no achievement whose condition holds is
    locked. *)
Lemma unlocked_when_due dateNow taskId tasks s ts r :
  processTaskCompletion dateNow taskId tasks s ts = Some r →
  let s' := CompletionResult.newState r in
  let unlocked x := x ∈ Achievement.id <$> GameState.achievements s' in
  (GameState.completedTasks s = 0 → unlocked "FIRST_BLOOD")
  ∧ (3 ≤ Combo.count (GameState.combo s') → unlocked "COMBO_MASTER")
  ∧ (3 ≤ GameState.level s' → unlocked "VETERAN")
  ∧ (∀ task, find (isTask taskId) tasks = Some task →
             GameTask.difficulty task = Rank_S → unlocked "LEGENDARY").
Proof.
  intros H s' unlocked. subst unlocked s'. cbn beta.
  destruct (completion_unlocks _ _ _ _ _ _ H)
    as (task & st & Hfind & _ & Hadded & Hold & Hlevel & Hcombo & ->).
  rewrite fmap_app. setoid_rewrite elem_of_app.
  rewrite Hadded, <- Hlevel, <- Hcombo.
  set (now := default dateNow ts). set (first := _ =? 0).
  assert (Hin : ∀ a, a ∈ checkAchievements st task first now →
            Achievement.id a ∈ Achievement.id <$> GameState.achievements s
            ∨ Achievement.id a
              ∈ Achievement.id <$> checkAchievements st task first now)
    by (intros a Ha; right; by apply list_elem_of_fmap_2).
  assert (Hcase : ∀ x, x ∈ Achievement.id <$> GameState.achievements s
                       ∨ has (currentIds st) x = false).
  { intros x. destruct (has (currentIds st) x) eqn:E; [left|by right].
    by apply (has_of_state st s). }
  repeat split.
  - intros Hfirst. destruct (Hcase "FIRST_BLOOD") as [?|E]; [by left|].
    apply (Hin (FIRST_BLOOD now)), elem_of_checkAchievements. left.
    subst first. by rewrite Hfirst.
  - intros Hcount. destruct (Hcase "COMBO_MASTER") as [?|E]; [by left|].
    apply (Hin (COMBO_MASTER now)), elem_of_checkAchievements. right. left.
    split; [done|]. split; [by apply Z.leb_le|done].
  - intros Hlvl. destruct (Hcase "VETERAN") as [?|E]; [by left|].
    apply (Hin (VETERAN now)), elem_of_checkAchievements. do 3 right.
    split; [done|]. split; [by apply Z.leb_le|done].
  - intros task' Hfind' Hrank. assert (task' = task) as -> by congruence.
    destruct (Hcase "LEGENDARY") as [?|E]; [by left|].
    apply (Hin (LEGENDARY now)), elem_of_checkAchievements. do 2 right. left.
    split; [done|]. split; [by apply bool_decide_eq_true|done].
Qed.

(** X1: after a call that returns a result, no achievement whose condition
    holds is left locked: FIRST_BLOOD if no task was completed before,
    COMBO_MASTER if the new combo count is at least 3, LEGENDARY if the task
    has rank S, VETERAN if the new level is at least 3, whatever the
    snapshot the call started from. *)
Theorem no_achievement_missed dateNow taskId tasks s ts r :
  processTaskCompletion dateNow taskId tasks s ts = Some r →
  let s' := CompletionResult.newState r in
  let unlocked x := x ∈ Achievement.id <$> GameState.achievements s' in
  (GameState.completedTasks s = 0 → unlocked "FIRST_BLOOD")
  ∧ (3 ≤ Combo.count (GameState.combo s') → unlocked "COMBO_MASTER")
  ∧ (3 ≤ GameState.level s' → unlocked "VETERAN")
  ∧ (∀ task, find (isTask taskId) tasks = Some task →
             GameTask.difficulty task = Rank_S → unlocked "LEGENDARY").
Proof. exact (unlocked_when_due dateNow taskId tasks s ts r). Qed.

(** ** What one completion changes *)

(** The counters after a successful call. *)
Lemma completion_counts dateNow taskId tasks s ts r :
  processTaskCompletion dateNow taskId tasks s ts = Some r →
  let s' := CompletionResult.newState r in
  let gain := CompletionResult.xpGained r in
  GameState.completedTasks s' = GameState.completedTasks s + 1
  ∧ (GameState.level s' = GameState.level s
     ∨ GameState.level s' = GameState.level s + 1)
  ∧ (Combo.count (GameState.combo s') = Combo.count (GameState.combo s) + 1
     ∨ Combo.count (GameState.combo s') = 1)
  ∧ (GameState.currentXp s' = GameState.currentXp s + gain
     ∨ (GameState.totalXpNeeded s ≤ GameState.currentXp s + gain
        ∧ GameState.currentXp s'
          = GameState.currentXp s + gain - GameState.totalXpNeeded s))
  ∧ GameState.momentum s' = calculateMomentum (GameState.momentum s) gain.
Proof.
  intros H. open_completion H task Hfind Hdone.
  set (gain := Num.floor _).
  split; [done|]. split; [destruct (_ <=? _); auto|].
  split; [destruct (_ && _); auto|]. split; [|done].
  destruct (Z.leb_spec (GameState.totalXpNeeded s) (GameState.currentXp s + gain));
    auto.
Qed.

(** ** Snapshots reached from the initial one *)


Lemma checkAchievements_first state task timestamp :
  has (currentIds state) "FIRST_BLOOD" = false →
  ∃ rest, checkAchievements state task true timestamp
          = FIRST_BLOOD timestamp :: rest.
Proof.
  intros Hnew. rewrite checkAchievements_rules. unfold rule at 1.
  cbn [Achievement.id FIRST_BLOOD]. rewrite Hnew. by eexists.
Qed.

(** X3: in every snapshot reached from [createInitialState], FIRST_BLOOD is
    unlocked exactly when at least one task is completed, and it is then
    the first entry of the achievement list. *)
Theorem first_blood_marks_first_completion s :
  reachable s →
  ("FIRST_BLOOD" ∈ Achievement.id <$> GameState.achievements s
   ↔ 0 < GameState.completedTasks s)
  ∧ (0 < GameState.completedTasks s →
     ∃ t, GameState.achievements s !! 0%nat = Some (FIRST_BLOOD t)).
Proof.
  intros Hreach.
  enough (0 ≤ GameState.completedTasks s
          ∧ (GameState.completedTasks s = 0 → GameState.achievements s = [])
          ∧ (0 < GameState.completedTasks s →
             ∃ t, GameState.achievements s !! 0%nat = Some (FIRST_BLOOD t)))
    as (Hcount & Hnone & Hhead).
  { split; [|exact Hhead]. split.
    - intros Hin. destruct (decide (GameState.completedTasks s = 0)) as [E|E]; [|lia].
      rewrite (Hnone E) in Hin. by apply elem_of_nil in Hin.
    - intros Hpos. destruct (Hhead Hpos) as [t Ht].
      apply list_elem_of_fmap. exists (FIRST_BLOOD t).
      split; [done|]. by eapply list_elem_of_lookup_2. }
  induction Hreach as [|s dateNow taskId tasks ts r _ (IHc & IHn & IHh) _ _ Hcall _];
    [cbn; split; [lia|]; split; [done|lia]|].
  destruct (completion_counts _ _ _ _ _ _ Hcall) as (Hdone & _).
  destruct (completion_unlocks _ _ _ _ _ _ Hcall)
    as (task & st & _ & _ & Hadded & Hold & _ & _ & Hall).
  rewrite Hdone, Hall. split; [lia|]. split; [lia|]. intros _.
  destruct (decide (GameState.completedTasks s = 0)) as [E|E].
  - rewrite (IHn E), app_nil_l, Hadded, E. change (0 =? 0) with true.
    destruct (checkAchievements_first st task (default dateNow ts)) as [rest ->].
    + destruct (has _ _) eqn:Hhas; [|done].
      apply (has_of_state st s) in Hhas; [|done].
      rewrite (IHn E) in Hhas. by apply elem_of_nil in Hhas.
    + by eexists.
  - destruct IHh as [t Ht]; [lia|]. exists t. by apply lookup_app_l_Some.
Qed.

(** X4: in every snapshot reached from [createInitialState], VETERAN is
    unlocked exactly when the level is at least 3. *)
Theorem veteran_marks_level_three s :
  reachable s →
  "VETERAN" ∈ Achievement.id <$> GameState.achievements s
  ↔ 3 ≤ GameState.level s.
Proof.
  induction 1 as [|s dateNow taskId tasks ts r _ IH _ _ Hcall _].
  - cbn. split; [by intros ?%elem_of_nil|lia].
  - split.
    + destruct (completion_counts _ _ _ _ _ _ Hcall) as (_ & Hlevel & _).
      destruct (completion_unlocks _ _ _ _ _ _ Hcall)
        as (task & st & _ & _ & Hadded & _ & Hst & _ & ->).
      rewrite fmap_app, elem_of_app. intros [Hold|Hnew].
      * apply IH in Hold. lia.
      * apply list_elem_of_fmap in Hnew as (a & Hid & Ha).
        rewrite Hadded in Ha.
        apply elem_of_checkAchievements in Ha
          as [(-> & _)|[(-> & _)|[(-> & _)|(-> & Hl & _)]]]; try discriminate Hid.
        rewrite <- Hst. by apply Z.leb_le.
    + apply (unlocked_when_due _ _ _ _ _ _ Hcall).
Qed.

(** X5: in every snapshot reached from [createInitialState], each entry of
    the achievement list is one of the four achievements with the time of
    its unlocking, no id occurs twice, and so the list has at most four
    entries. *)
Theorem reachable_achievements s :
  reachable s →
  Forall (λ a, ∃ t, a ∈ [FIRST_BLOOD t; COMBO_MASTER t; LEGENDARY t; VETERAN t])
         (GameState.achievements s)
  ∧ NoDup (Achievement.id <$> GameState.achievements s)
  ∧ (length (GameState.achievements s) ≤ 4)%nat.
Proof.
  intros Hreach.
  enough (Forall (λ a, ∃ t, a ∈ [FIRST_BLOOD t; COMBO_MASTER t;
                                 LEGENDARY t; VETERAN t])
                 (GameState.achievements s)
          ∧ NoDup (Achievement.id <$> GameState.achievements s)) as [Hall Hnodup].
  { split; [done|]. split; [done|].
    rewrite <- (length_fmap Achievement.id).
    change 4%nat with (length ["FIRST_BLOOD"; "COMBO_MASTER"; "LEGENDARY"; "VETERAN"]).
    apply submseteq_length, NoDup_submseteq; [done|].
    intros x (a & -> & Ha)%list_elem_of_fmap.
    rewrite Forall_forall in Hall. destruct (Hall a Ha) as [t Ht].
    set_unfold in Ht. destruct Ht as [->|[->|[->|[->|[]]]]]; set_solver. }
  induction Hreach as [|s dateNow taskId tasks ts r _ [IHall IHnodup] _ _ Hcall _].
  - split; [constructor|]. cbn. constructor.
  - destruct (completion_unlocks _ _ _ _ _ _ Hcall)
      as (task & st & _ & _ & Hadded & Hold & _ & _ & ->).
    split.
    + apply Forall_app. split; [done|]. apply Forall_forall. intros a Ha.
      exists (default dateNow ts).
      rewrite Hadded in Ha.
      eapply elem_of_sublist; [exact Ha|apply checkAchievements_sublist].
    + rewrite fmap_app. apply NoDup_app. split; [done|]. split.
      * intros x Hx (a & -> & Ha)%list_elem_of_fmap. rewrite Hadded in Ha.
        apply checkAchievements_fresh in Ha. by rewrite Hold in Ha.
      * rewrite Hadded. eapply sublist_NoDup;
          [|apply (fmap_sublist Achievement.id), checkAchievements_sublist].
        cbn. apply (bool_decide_unpack _). by vm_compute.
Qed.

Lemma length_calculateMomentum history xpGain :
  length (calculateMomentum history xpGain)
  = if decide (length history < 20)%nat
    then Datatypes.S (length history) else length history.
Proof.
  unfold calculateMomentum, shift, MOMENTUM_HISTORY_LIMIT.
  repeat case_decide; rewrite ?length_drop, length_app in *; cbn [length] in *; lia.
Qed.

(** X6: in every snapshot reached from [createInitialState], the momentum
    history has 5 samples more than tasks were completed, up to 20: its
    length is min (20, 5 + completed tasks). *)
Theorem reachable_momentum_length s :
  reachable s →
  Z.of_nat (length (GameState.momentum s))
  = Z.min 20 (5 + GameState.completedTasks s).
Proof.
  intros Hreach.
  enough (0 ≤ GameState.completedTasks s
          ∧ Z.of_nat (length (GameState.momentum s))
            = Z.min 20 (5 + GameState.completedTasks s)) by tauto.
  induction Hreach as [|s dateNow taskId tasks ts r _ [IHc IH] _ _ Hcall _];
    [cbn; lia|].
  destruct (completion_counts _ _ _ _ _ _ Hcall) as (-> & _ & _ & _ & ->).
  rewrite length_calculateMomentum. case_decide; lia.
Qed.

(** ** The task list across completions *)

Lemma id_markCompleted taskId t :
  GameTask.id (markCompleted taskId t) = GameTask.id t.
Proof. unfold markCompleted. by destruct (isTask taskId t). Qed.

Lemma completed_filter_insert (tasks : list GameTask.t) i task :
  tasks !! i = Some task →
  GameTask.completed task = false →
  length (filter (λ t, GameTask.completed t = true)
                 (<[i := GameTask.complete task]> tasks))
  = Datatypes.S (length (filter (λ t, GameTask.completed t = true) tasks)).
Proof.
  intros Hi Hopen.
  rewrite insert_take_drop by (by eapply lookup_lt_Some).
  rewrite <- (take_drop_middle tasks i task Hi) at 3.
  rewrite !filter_app, !filter_cons, !length_app.
  rewrite decide_True by done. rewrite decide_False by congruence.
  cbn [length]. lia.
Qed.

(** X7: the task list a successful call returns has the ids of the input
    list, in the same order, and each of its tasks is the input task at
    that position or that task with [completed] set; so unique ids stay
    unique and no completed task is reopened; with unique ids, exactly one
    more task is completed than before. *)
Theorem task_list_after_completion dateNow taskId tasks s ts r :
  processTaskCompletion dateNow taskId tasks s ts = Some r →
  let tasks' := CompletionResult.newTasks r in
  let done (l : list GameTask.t) :=
    length (filter (λ t, GameTask.completed t = true) l) in
  GameTask.id <$> tasks' = GameTask.id <$> tasks
  ∧ Forall2 (λ t t', t' = t ∨ (GameTask.id t = taskId ∧ t' = GameTask.complete t))
            tasks tasks'
  ∧ (∀ i t, tasks !! i = Some t → GameTask.completed t = true →
            tasks' !! i = Some t)
  ∧ (NoDup (GameTask.id <$> tasks) →
     NoDup (GameTask.id <$> tasks') ∧ done tasks' = Datatypes.S (done tasks)).
Proof.
  intros H. open_completion H task Hfind Hdone.
  assert (Hids : GameTask.id <$> (markCompleted taskId <$> tasks)
                 = GameTask.id <$> tasks).
  { rewrite <- list_fmap_compose. apply list_fmap_ext.
    intros i t _. apply id_markCompleted. }
  split; [exact Hids|]. split; [|split].
  - apply Forall2_fmap_r, Forall_Forall2_diag, Forall_forall.
    intros t _. unfold compose, markCompleted, isTask.
    destruct (String.eqb_spec (GameTask.id t) taskId); auto.
  - intros i t Hi Ht. rewrite list_lookup_fmap, Hi. cbn. f_equal.
    unfold markCompleted. destruct (isTask taskId t); [|done].
    destruct t. cbn in Ht. by rewrite Ht.
  - intros Hnodup. rewrite Hids. split; [done|].
    destruct (markCompleted_unique _ _ _ Hnodup Hfind) as (i & Hi & ->).
    by apply completed_filter_insert.
Qed.

(** ** Two completions in a row *)


(** The combo after a successful call. *)
Lemma combo_after dateNow taskId tasks s ts r :
  processTaskCompletion dateNow taskId tasks s ts = Some r →
  let now := default dateNow ts in
  let last := Combo.lastCompletionTime (GameState.combo s) in
  let combo' := GameState.combo (CompletionResult.newState r) in
  Combo.count combo'
  = (if (now - last <? 30000) && (0 <? last)
     then Combo.count (GameState.combo s) + 1 else 1)
  ∧ Combo.lastCompletionTime combo' = now
  ∧ CompletionResult.comboTriggered r = (1 <? Combo.count combo').
Proof. intros H. by open_completion H task Hfind Hdone. Qed.

(** X9: the threshold is a function of the level.  In every snapshot
    reached from [createInitialState] the level is at least 1 and the
    threshold is 1000 with [getNextLevelThreshold] applied once for each
    level gained: the threshold is raised when, and only when, the level
    is. *)
Theorem threshold_follows_level s :
  reachable s →
  1 ≤ GameState.level s
  ∧ GameState.totalXpNeeded s
    = Nat.iter (Z.to_nat (GameState.level s - 1)) getNextLevelThreshold 1000.
Proof.
  induction 1 as [|s dateNow taskId tasks ts r _ [IHl IHt] _ _ Hcall _];
    [by cbn|].
  open_completion Hcall task Hfind Hdone.
  destruct (_ <=? _); [|done]. split; [lia|].
  replace (Z.to_nat (GameState.level s + 1 - 1))
    with (Datatypes.S (Z.to_nat (GameState.level s - 1))) by lia.
  rewrite Nat.iter_succ. by rewrite <- IHt.
Qed.

(** X10: the stored multiplier is a function of the stored combo count.
    In every snapshot reached from [createInitialState] the multiplier is
    1.0 + count * 0.1 if the count exceeds 1 and 1.0 otherwise, and a
    positive time of last completion comes with a count of at least 1. *)
Theorem multiplier_follows_count s :
  reachable s →
  let c := GameState.combo s in
  Combo.multiplier c
  = (if 1 <? Combo.count c
     then (1.0 + Num.of_Z (Combo.count c) * 0.1)%float else 1.0%float)
  ∧ (0 < Combo.lastCompletionTime c → 1 ≤ Combo.count c).
Proof.
  cbn zeta.
  induction 1 as [|s dateNow taskId tasks ts r _ [IHm IHc] _ _ Hcall _];
    [by cbn|].
  open_completion Hcall task Hfind Hdone.
  destruct (Z.ltb_spec (default dateNow ts
                        - Combo.lastCompletionTime (GameState.combo s))
                       COMBO_WINDOW_MS);
    destruct (Z.ltb_spec 0 (Combo.lastCompletionTime (GameState.combo s)));
    cbn [andb]; try (split; [done|lia]).
  split; [|lia].
  destruct (Z.ltb_spec 1 (Combo.count (GameState.combo s) + 1)); [done|lia].
Qed.

(** * The test bench *)

Lemma find_app_None {A} (p : A → bool) l1 l2 :
  find p l1 = None → find p (l1 ++ l2) = find p l2.
Proof.
  induction l1 as [|x l1 IH]; [done|]. cbn [find app].
  by destruct (p x).
Qed.

Lemma find_app_Some {A} (p : A → bool) l1 l2 x :
  find p l1 = Some x → find p (l1 ++ l2) = Some x.
Proof.
  induction l1 as [|y l1 IH]; [done|]. cbn [find app].
  by destruct (p y).
Qed.

Lemma bench_find tempId diff xp :
  (∀ t, t ∈ TestBench.testTasks → GameTask.id t ≠ tempId) →
  find (isTask tempId) (TestBench.testTasks ++ [createDummyTask tempId diff xp])
  = Some (createDummyTask tempId diff xp).
Proof.
  intros Hfresh.
  rewrite find_app_None by (by apply find_isTask_None).
  cbn [find]. unfold isTask. cbn [GameTask.id createDummyTask].
  by rewrite String.eqb_refl.
Qed.

Lemma temp_id_fresh rest t :
  t ∈ TestBench.testTasks → GameTask.id t ≠ "temp-" +:+ rest.
Proof.
  unfold TestBench.testTasks. rewrite !elem_of_cons, elem_of_nil.
  intros [->|[->|[->|[->|[->|[->|[->|[->|[]]]]]]]]]; discriminate.
Qed.

(** A click on the bench goes through: the engine returns a result, and the
    bench takes its snapshot, advances the clock by 5 s and logs. *)
Lemma executeTask_goes_through dateNow random diff xp b :
  let tempId := "temp-" +:+ pretty dateNow +:+ "-" +:+ random in
  ∃ r,
    processTaskCompletion dateNow tempId
      (TestBench.testTasks ++ [createDummyTask tempId diff xp])
      (TestBench.gameState b) (Some (TestBench.virtualTime b)) = Some r
    ∧ TestBench.gameState (TestBench.executeTask dateNow random diff xp b)
      = CompletionResult.newState r
    ∧ TestBench.virtualTime (TestBench.executeTask dateNow random diff xp b)
      = TestBench.virtualTime b + 5000
    ∧ ∃ new,
        TestBench.logs (TestBench.executeTask dateNow random diff xp b)
        = new ++ TestBench.logs b
        ∧ length new
          = (2 + length (CompletionResult.achievementsUnlocked r))%nat
        ∧ Forall (λ e, TestBench.time e = TestBench.virtualTime b) new.
Proof.
  intros tempId. unfold TestBench.executeTask. fold tempId.
  destruct (processTaskCompletion _ _ _ _ _) as [r|] eqn:Hr.
  2:{ exfalso. unfold processTaskCompletion in Hr.
      rewrite bench_find in Hr by (intros t; apply temp_id_fresh).
      discriminate Hr. }
  exists r. split; [done|]. split; [done|]. split; [done|].
  cbn [TestBench.advanceTime TestBench.logs TestBench.virtualTime].
  generalize (CompletionResult.achievementsUnlocked r). intros unlocked.
  match goal with
  | |- context [foldl ?f (TestBench.addLog ?t ?m ?l) unlocked] =>
      set (step := f); generalize m; intros msg
  end.
  assert (Hfold : ∀ acc, ∃ new,
            foldl step acc unlocked = new ++ acc
            ∧ length new = length unlocked
            ∧ Forall (λ e, TestBench.time e = TestBench.virtualTime b) new).
  { induction unlocked as [|a unlocked IH]; intros acc; [by exists []|].
    cbn [foldl]. destruct (IH (step acc a)) as (new & -> & Hlen & Hall).
    exists (new ++ [TestBench.mkLogEntry (TestBench.virtualTime b)
                      ("🏆 UNLOCKED: " +:+ Achievement.id a +:+ " "
                       +:+ Achievement.icon a)]).
    split; [by rewrite <- app_assoc|]. split; [rewrite length_app; cbn; lia|].
    apply Forall_app. split; [done|]. by repeat constructor. }
  destruct (Hfold (TestBench.addLog (TestBench.virtualTime b) msg (TestBench.logs b)))
    as (new & -> & Hlen & Hall).
  eexists (_ :: new ++ [_]). split.
  - unfold TestBench.addLog. cbn [app]. f_equal. by rewrite <- app_assoc.
  - split; [cbn; rewrite length_app; cbn; lia|].
    constructor; [done|]. apply Forall_app. split; [done|]. by repeat constructor.
Qed.


(** The combo count after a click. *)
Lemma click_combo b c :
  let b' := TestBench.click b c in
  let last := Combo.lastCompletionTime (GameState.combo (TestBench.gameState b)) in
  Combo.count (GameState.combo (TestBench.gameState b'))
  = (if (TestBench.virtualTime b - last <? 30000) && (0 <? last)
     then Combo.count (GameState.combo (TestBench.gameState b)) + 1 else 1)
  ∧ Combo.lastCompletionTime (GameState.combo (TestBench.gameState b'))
    = TestBench.virtualTime b
  ∧ GameState.completedTasks (TestBench.gameState b')
    = GameState.completedTasks (TestBench.gameState b) + 1
  ∧ TestBench.virtualTime b' = TestBench.virtualTime b + 5000.
Proof.
  unfold TestBench.click.
  destruct (executeTask_goes_through (TestBench.clickNow c)
              (TestBench.clickRandom c) (TestBench.clickDiff c)
              (TestBench.clickXp c) b) as (r & Hr & Hstate & Htime & _).
  cbn zeta. rewrite Hstate, Htime.
  destruct (completion_counts _ _ _ _ _ _ Hr) as (-> & _).
  by destruct (combo_after _ _ _ _ _ _ Hr) as (-> & -> & _).
Qed.

(** X12: clicks on the task buttons of a fresh bench, one after the other
    and without any manual advance of the clock, build one combo: after n
    clicks the combo count and the number of completed tasks are n, and
    the virtual time is 1000000 + 5000 n. *)
Theorem bench_clicks_build_a_combo (clicks : list TestBench.Click) :
  let b := foldl TestBench.click TestBench.initial clicks in
  let n := Z.of_nat (length clicks) in
  Combo.count (GameState.combo (TestBench.gameState b)) = n
  ∧ GameState.completedTasks (TestBench.gameState b) = n
  ∧ TestBench.virtualTime b = 1000000 + 5000 * n.
Proof.
  cbn zeta.
  enough (Combo.count (GameState.combo
            (TestBench.gameState (foldl TestBench.click TestBench.initial clicks)))
          = Z.of_nat (length clicks)
          ∧ GameState.completedTasks
              (TestBench.gameState (foldl TestBench.click TestBench.initial clicks))
            = Z.of_nat (length clicks)
          ∧ TestBench.virtualTime (foldl TestBench.click TestBench.initial clicks)
            = 1000000 + 5000 * Z.of_nat (length clicks)
          ∧ Combo.lastCompletionTime (GameState.combo
              (TestBench.gameState (foldl TestBench.click TestBench.initial clicks)))
            = if decide (clicks = []) then 0
              else 1000000 + 5000 * Z.of_nat (length clicks) - 5000) by tauto.
  induction clicks as [|c clicks IH] using rev_ind; [done|].
  destruct IH as (IHcount & IHdone & IHtime & IHlast).
  rewrite foldl_app, length_app. cbn [foldl length].
  destruct (click_combo (foldl TestBench.click TestBench.initial clicks) c)
    as (-> & -> & -> & ->).
  rewrite IHcount, IHdone, IHtime, IHlast.
  rewrite (decide_False (P := clicks ++ [c] = [])) by (by destruct clicks).
  split; [|lia]. case_decide as Hnil.
  - subst clicks. done.
  - assert (0 < length clicks)%nat by (destruct clicks; [done|cbn; lia]).
    rewrite (proj2 (Z.ltb_lt _ _)) by lia.
    rewrite (proj2 (Z.ltb_lt _ _)) by lia. cbn [andb]. lia.
Qed.



(** * The game hook *)

Import VibeGame.

(** The achievement part of [announce], in closed form. *)
Lemma announce_achievements stamp (unlocked : list Achievement.t) ev lg :
  foldl (λ '(newEvents, newLogs) ach,
           (newEvents ++ [ACHIEVEMENT ach],
            newLogs ++ [createLogEntry (stamp (length newLogs))
                          HistoryLogEntry.ACHIEVEMENT_UNLOCK
                          ("Unlocked: " +:+ Achievement.id ach)
                          (Some (HistoryLogEntry.Unlock (Achievement.id ach)
                                   (Achievement.icon ach)))]))
        (ev, lg) unlocked
  = (ev ++ (ACHIEVEMENT <$> unlocked),
     lg ++ imap (λ i ach,
                   createLogEntry (stamp (length lg + i)%nat)
                     HistoryLogEntry.ACHIEVEMENT_UNLOCK
                     ("Unlocked: " +:+ Achievement.id ach)
                     (Some (HistoryLogEntry.Unlock (Achievement.id ach)
                              (Achievement.icon ach)))) unlocked).
Proof.
  revert ev lg. induction unlocked as [|a unlocked IH]; intros ev lg.
  - by rewrite !app_nil_r.
  - cbn [foldl]. rewrite IH. cbn [fmap list_fmap imap].
    rewrite <- !app_assoc. cbn [app]. rewrite Nat.add_0_r. do 3 f_equal.
    apply imap_ext. intros i x _. cbn. rewrite length_app. cbn [length].
    do 2 f_equal. lia.
Qed.

(** [announce] in closed form. *)
Lemma announce_spec stamp taskId tasks result :
  let s' := CompletionResult.newState result in
  let up := CompletionResult.leveledUp result in
  let unlocked := CompletionResult.achievementsUnlocked result in
  let title := titleOf (find (isTask taskId) tasks) in
  announce stamp taskId tasks result
  = (COMPLETE taskId (CompletionResult.xpGained result)
       (if CompletionResult.comboTriggered result
        then Some (Combo.count (GameState.combo s')) else None)
     :: (if up then [LEVEL_UP (GameState.level s')] else [])
     ++ (ACHIEVEMENT <$> unlocked),
     createLogEntry (stamp 0%nat) HistoryLogEntry.TASK_COMPLETE
       ("Completed: " +:+ title)
       (Some (HistoryLogEntry.XpCombo (CompletionResult.xpGained result)
                (CompletionResult.comboTriggered result)))
     :: (if up
         then [createLogEntry (stamp 1%nat) HistoryLogEntry.LEVEL_UP
                 ("Promoted to Level " +:+ pretty (GameState.level s'))
                 (Some (HistoryLogEntry.Level (GameState.level s')))]
         else [])
     ++ imap (λ i ach,
                createLogEntry (stamp ((if up then 2 else 1) + i)%nat)
                  HistoryLogEntry.ACHIEVEMENT_UNLOCK
                  ("Unlocked: " +:+ Achievement.id ach)
                  (Some (HistoryLogEntry.Unlock (Achievement.id ach)
                           (Achievement.icon ach)))) unlocked).
Proof.
  cbn zeta. unfold announce.
  destruct (CompletionResult.leveledUp result);
    by rewrite announce_achievements.
Qed.

(** [completeTask], case by case. *)
Lemma completeTask_cases dateNow stamp taskId c h :
  match processTaskCompletion dateNow taskId (seenTasks c) (seenGameState c)
          None with
  | Some result =>
      completeTask dateNow stamp taskId c h
      = ({| tasks := CompletionResult.newTasks result;
            gameState := CompletionResult.newState result;
            events := events h ++ (announce stamp taskId (seenTasks c) result).1;
            logs := (announce stamp taskId (seenTasks c) result).2 ++ logs h |},
         true)
  | None => completeTask dateNow stamp taskId c h = (h, false)
  end.
Proof.
  unfold completeTask. destruct (processTaskCompletion _ _ _ _ _); [|done].
  by destruct (announce _ _ _ _).
Qed.

Lemma find_isTask_markCompleted x y tasks :
  find (isTask x) (markCompleted y <$> tasks)
  = markCompleted y <$> find (isTask x) tasks.
Proof.
  induction tasks as [|t tasks IH]; [done|].
  cbn [fmap list_fmap find]. unfold isTask at 1.
  rewrite id_markCompleted. fold (isTask x t).
  by destruct (isTask x t).
Qed.

Lemma completed_markCompleted y t :
  GameTask.completed t = true → GameTask.completed (markCompleted y t) = true.
Proof. unfold markCompleted. by destruct (isTask y t). Qed.

Lemma tasks_after_complete dateNow stamp taskId h :
  tasks (completeTask dateNow stamp taskId (render h) h).1 = tasks h
  ∨ (∃ task, find (isTask taskId) (tasks h) = Some task
             ∧ GameTask.completed task = false)
    ∧ tasks (completeTask dateNow stamp taskId (render h) h).1
      = markCompleted taskId <$> tasks h.
Proof.
  pose proof (completeTask_cases dateNow stamp taskId (render h) h) as Hc.
  cbn [render seenTasks seenGameState] in Hc.
  destruct (processTaskCompletion _ _ _ _ _) as [r|] eqn:Hr;
    rewrite Hc; [right|by left].
  open_completion Hr task Hfind Hdone. split; [by exists task|done].
Qed.

(** Whether a call returns a result does not depend on the clock. *)
Lemma result_whatever_the_clock dateNow dateNow' taskId tasks s ts ts' :
  is_Some (processTaskCompletion dateNow taskId tasks s ts)
  → is_Some (processTaskCompletion dateNow' taskId tasks s ts').
Proof.
  unfold processTaskCompletion.
  destruct (find _ _) as [task|]; [|by intros [? ?]].
  destruct (GameTask.completed task); [by intros [? ?]|by eexists].
Qed.

(** X14: [completeTask] returns false exactly when the engine returns no
    result on the tasks and the snapshot of the render that built it, and
    then leaves the four state cells as they are.  When every call is made
    after the component has rendered the state the call before it left, a
    task completed once stays so: once the first task of the list with a
    given id is completed, then after any further completions and additions
    of tasks, even of tasks with the same id, [completeTask] with that id
    returns false and changes nothing.  Two calls from one render are
    another matter: if the first returns true, so does the second, for the
    same task, as both read the task list of their render. *)
Theorem hook_completes_a_task_once dateNow stamp taskId c h :
  ((completeTask dateNow stamp taskId c h).2 = false
   ↔ processTaskCompletion dateNow taskId (seenTasks c) (seenGameState c) None
     = None)
  ∧ ((completeTask dateNow stamp taskId c h).2 = false →
     (completeTask dateNow stamp taskId c h).1 = h)
  ∧ (∀ actions dateNow' stamp',
       (∃ t, find (isTask taskId) (tasks h) = Some t
             ∧ GameTask.completed t = true) →
       let h' := foldl callAfterRender h actions in
       completeTask dateNow' stamp' taskId (render h') h' = (h', false))
  ∧ (∀ dateNow' stamp',
       (completeTask dateNow stamp taskId c h).2 = true →
       (completeTask dateNow' stamp' taskId c
          (completeTask dateNow stamp taskId c h).1).2 = true).
Proof.
  pose proof (completeTask_cases dateNow stamp taskId c h) as Hc.
  split; [|split; [|split]].
  - destruct (processTaskCompletion _ _ _ _ _); by rewrite Hc.
  - destruct (processTaskCompletion _ _ _ _ _); by rewrite Hc.
  - clear Hc. intros actions dateNow' stamp' Hdone. cbn zeta.
    assert (Hlater :
      ∃ t, find (isTask taskId) (tasks (foldl callAfterRender h actions)) = Some t
           ∧ GameTask.completed t = true).
    { revert h Hdone. induction actions as [|a actions IH]; intros h Hdone; [done|].
      cbn [foldl]. apply IH. destruct Hdone as (t & Hfind & Ht).
      destruct a as [d st y|st newTasks]; cbn [callAfterRender].
      - destruct (tasks_after_complete d st y h) as [->|[_ ->]]; [by exists t|].
        exists (markCompleted y t).
        rewrite find_isTask_markCompleted, Hfind.
        split; [done|by apply completed_markCompleted].
      - exists t. cbn [addNewTasks tasks]. split; [|done].
        by apply find_app_Some. }
    destruct Hlater as (t & Hfind & Ht).
    pose proof (completeTask_cases dateNow' stamp' taskId
                  (render (foldl callAfterRender h actions))
                  (foldl callAfterRender h actions)) as Hc.
    cbn [render seenTasks seenGameState] in Hc.
    unfold processTaskCompletion in Hc. by rewrite Hfind, Ht in Hc.
  - intros dateNow' stamp' Htrue.
    destruct (processTaskCompletion dateNow taskId _ _ None) as [r|] eqn:Hr;
      [|by rewrite Hc in Htrue].
    destruct (result_whatever_the_clock dateNow dateNow' taskId (seenTasks c)
                (seenGameState c) None None) as [r' Hr']; [by rewrite Hr|].
    pose proof (completeTask_cases dateNow' stamp' taskId c
                  (completeTask dateNow stamp taskId c h).1) as Hc'.
    rewrite Hr' in Hc'. by rewrite Hc'.
Qed.








(** X16: what a successful [completeTask] announces.  The events it appends
    are a COMPLETE event, a LEVEL_UP event if the call leveled up, and one
    ACHIEVEMENT event for each achievement unlocked, in that order; the
    COMPLETE event carries a combo exactly when the new combo count exceeds
    1, and it is that count.  The log gains one entry for each of these
    events, of the matching kind and in the same order, stamped by the
    successive calls of [createLogEntry], and the new entries are put, in
    that order, in front of the older ones.  This holds for the
    [completeTask] of any render, the engine running on the tasks and the
    snapshot of that render. *)
Theorem hook_announces_completion dateNow stamp taskId seen h r :
  processTaskCompletion dateNow taskId (seenTasks seen) (seenGameState seen) None
  = Some r →
  let h' := (completeTask dateNow stamp taskId seen h).1 in
  let s' := CompletionResult.newState r in
  let up := CompletionResult.leveledUp r in
  let unlocked := CompletionResult.achievementsUnlocked r in
  ∃ combo newLogs,
    events h'
    = events h ++ COMPLETE taskId (CompletionResult.xpGained r) combo
                  :: (if up then [LEVEL_UP (GameState.level s')] else [])
                  ++ (ACHIEVEMENT <$> unlocked)
    ∧ (∀ c, combo = Some c
            ↔ c = Combo.count (GameState.combo s') ∧ 1 < c)
    ∧ logs h' = newLogs ++ logs h
    ∧ HistoryLogEntry.type <$> newLogs
      = HistoryLogEntry.TASK_COMPLETE
        :: (if up then [HistoryLogEntry.LEVEL_UP] else [])
        ++ replicate (length unlocked) HistoryLogEntry.ACHIEVEMENT_UNLOCK
    ∧ ∀ k e, newLogs !! k = Some e →
             (HistoryLogEntry.id e, HistoryLogEntry.timestamp e) = stamp k.
Proof.
  intros Hr. cbn zeta.
  pose proof (completeTask_cases dateNow stamp taskId seen h) as Hc.
  rewrite Hr in Hc. rewrite Hc. cbn [fst events logs].
  rewrite announce_spec. cbn [fst snd].
  eexists _, _. split; [reflexivity|]. split; [|split; [reflexivity|split]].
  - intros c. destruct (combo_after _ _ _ _ _ _ Hr) as (_ & _ & ->).
    destruct (Z.ltb_spec 1 (Combo.count (GameState.combo (CompletionResult.newState r)))).
    + split; [by intros [= <-]|by intros [-> _]].
    + split; [done|]. intros [-> ?]. lia.
  - rewrite fmap_cons, fmap_app, fmap_imap. cbn [HistoryLogEntry.type createLogEntry].
    f_equal. f_equal; [by destruct (CompletionResult.leveledUp r)|].
    generalize (CompletionResult.achievementsUnlocked r). intros l.
    induction l as [|a l IH] using rev_ind; [done|].
    rewrite imap_app, length_app, replicate_add, IH. done.
  - assert (∀ st ty m d,
              (HistoryLogEntry.id (createLogEntry st ty m d),
               HistoryLogEntry.timestamp (createLogEntry st ty m d)) = st)
      as Hst by (by intros [] ? ? ?).
    intros k e. destruct k as [|k]; [by intros [= <-]|].
    rewrite lookup_cons.
    destruct (CompletionResult.leveledUp r).
    + destruct k as [|k]; [by intros [= <-]|].
      cbn [app]. rewrite lookup_cons, list_lookup_imap.
      destruct (_ !! k); [|done]. by intros [= <-].
    + rewrite app_nil_l, list_lookup_imap.
      destruct (_ !! k); [|done]. by intros [= <-].
Qed.


(** ** The references a call hands out *)

Section HeapLayout.
Import Heap.

(** The objects of a new task array stay what they are while the heap
    grows. *)
Lemma refs_mono taskId (h0 h h' : heap) elems (tasks : list GameTask.t) k :
  h `prefix_of` h' →
  Forall3 (λ l t l',
             if isTask taskId t
             then (length h0 ≤ l')%nat
                  ∧ taskAt h l' = Some (GameTask.complete t)
             else l' = l) elems tasks k →
  Forall3 (λ l t l',
             if isTask taskId t
             then (length h0 ≤ l')%nat
                  ∧ taskAt h' l' = Some (GameTask.complete t)
             else l' = l) elems tasks k.
Proof.
  intros Hp H. eapply Forall3_impl; [exact H|].
  intros l t l' HP. cbn beta in *. destruct (isTask taskId t); [|done].
  split; [apply HP|]. eapply taskAt_mono; [exact Hp|apply HP].
Qed.

Local Ltac lift_to Hp :=
  lazymatch type of Hp with
  | ?h `prefix_of` ?h' =>
    repeat match goal with
    | F : taskAt h _ = Some _ |- _ => apply (taskAt_mono _ _ _ _ Hp) in F
    | F : taskArrAt h _ = Some _ |- _ => apply (taskArrAt_mono _ _ _ _ Hp) in F
    | F : numArrAt h _ = Some _ |- _ => apply (numArrAt_mono _ _ _ _ Hp) in F
    | F : achArrAt h _ = Some _ |- _ => apply (achArrAt_mono _ _ _ _ Hp) in F
    | F : comboAt h _ = Some _ |- _ => apply (comboAt_mono _ _ _ _ Hp) in F
    | F : stateObjAt h _ = Some _ |- _ => apply (stateObjAt_mono _ _ _ _ Hp) in F
    | F : achievementsAt h _ = Some _ |- _ =>
        apply (achievementsAt_mono _ _ _ _ Hp) in F
    | F : Forall3 ?P _ _ _ |- _ =>
        lazymatch P with
        | context [h] => apply (refs_mono _ _ _ _ _ _ _ Hp) in F
        end
    | F : _ `prefix_of` h |- _ => apply (λ F', transitivity F' Hp) in F
    end
  end.

Local Ltac wp_read_with F := apply wp_bind; eapply wp_read; [exact F|].

(** The run that [wp] speaks of. *)
Lemma wp_run {A} (m : M A) h Q :
  wp m h (λ a h', m h = Some (a, h') → Q a h') → wp m h Q.
Proof.
  unfold wp. destruct (m h) as [[a h']|]; [|done]. intros HQ. by apply HQ.
Qed.

Lemma bind_Some {A B} (m : M A) (f : A → M B) h b h' :
  bind m f h = Some (b, h') →
  ∃ a h1, m h = Some (a, h1) ∧ f a h1 = Some (b, h').
Proof. unfold bind. destruct (m h) as [[a h1]|]; [|done]. eauto. Qed.

(** A new cell is none of the cells there were. *)
Lemma wp_alloc_fresh c h Q :
  (∀ l h', h `prefix_of` h' → (length h ≤ l)%nat → h' !! l = Some c → Q l h') →
  wp (alloc c) h Q.
Proof.
  intros HQ. apply wp_alloc_at, HQ; [by apply prefix_app_r|done|].
  by apply list_lookup_middle.
Qed.

(** The array [calculateMomentum] returns, and the one [checkAchievements]
    returns, is the first cell the call allocates. *)
Lemma calculateMomentum_first_cell history xpGain h l h' :
  HeapEngine.calculateMomentum history xpGain h = Some (l, h') → l = length h.
Proof.
  unfold HeapEngine.calculateMomentum. intros H.
  apply bind_Some in H as (elems & h1 & Hread & H).
  unfold read in Hread. destruct (numArrAt h history); [|done].
  injection Hread as <- <-.
  apply bind_Some in H as (new & h2 & Halloc & H).
  unfold alloc in Halloc. injection Halloc as <- <-.
  repeat (apply bind_Some in H as (? & ? & _ & H)).
  unfold ret in H. by injection H as <- _.
Qed.

Lemma checkAchievements_first_cell state task isFirstTask timestamp h l h' :
  HeapEngine.checkAchievements state task isFirstTask timestamp h = Some (l, h') →
  l = length h.
Proof.
  unfold HeapEngine.checkAchievements. intros H.
  apply bind_Some in H as (new & h2 & Halloc & H).
  unfold alloc in Halloc. injection Halloc as <- <-.
  repeat (apply bind_Some in H as (? & ? & _ & H)).
  unfold ret in H. by injection H as <- _.
Qed.

(** [map], with the references of the new array: a new object for a task
    with the id, the reference itself for another. *)
Lemma map_refs taskId elems (tasks : list GameTask.t) h0 h Q :
  h0 `prefix_of` h →
  mapM (taskAt h0) elems = Some tasks →
  (∀ k h', h `prefix_of` h' →
     Forall3 (λ l t l',
                if isTask taskId t
                then (length h0 ≤ l')%nat
                     ∧ taskAt h' l' = Some (GameTask.complete t)
                else l' = l) elems tasks k →
     Q k h') →
  wp (HeapEngine.map taskId elems) h Q.
Proof.
  revert tasks h Q.
  induction elems as [|l elems IH]; intros tasks h Q Hp H HQ;
    apply mapM_Some in H.
  - apply Forall2_nil_inv_l in H as ->. apply wp_ret, HQ; [done|constructor].
  - apply Forall2_cons_inv_l in H as (t & tasks' & Hl & Hrest & ->).
    cbn [HeapEngine.map]. apply wp_bind.
    eapply wp_read; [by eapply taskAt_mono|].
    apply wp_bind. destruct (isTask taskId t) eqn:E.
    + apply wp_alloc_fresh. intros l' h1 Hp1 Hfresh Hl'.
      apply wp_bind. apply (IH tasks'); [by etrans|by apply mapM_Some|].
      intros k h2 Hp2 Hk. apply wp_ret, HQ; [by etrans|].
      constructor; [|done]. rewrite E. split.
      * apply prefix_length in Hp. lia.
      * eapply taskAt_mono; [exact Hp2|]. unfold taskAt. by rewrite Hl'.
    + apply wp_ret. apply wp_bind.
      apply (IH tasks'); [done|by apply mapM_Some|].
      intros k h2 Hp2 Hk. apply wp_ret, HQ; [done|].
      constructor; [by rewrite E|done].
Qed.

(** The call, with the references of its result. *)
Lemma processTaskCompletion_layout dateNow taskId ts h tasksRef stateRef
    elems (tasks : list GameTask.t) st s Q :
  taskArrAt h tasksRef = Some elems →
  mapM (taskAt h) elems = Some tasks →
  stateObjAt h stateRef = Some st →
  stateAt h stateRef = Some s →
  (∀ res h', h `prefix_of` h' →
     match res with
     | None => h' = h
     | Some refs =>
         ∃ k st' old new,
           ((length h ≤ HeapEngine.newTasks refs)%nat
            ∧ taskArrAt h' (HeapEngine.newTasks refs) = Some k
            ∧ Forall3 (λ l t l',
                         if isTask taskId t
                         then (length h ≤ l')%nat
                              ∧ taskAt h' l' = Some (GameTask.complete t)
                         else l' = l) elems tasks k)
           ∧ ((length h ≤ HeapEngine.newState refs)%nat
              ∧ stateObjAt h' (HeapEngine.newState refs) = Some st'
              ∧ (length h ≤ momentum st')%nat
              ∧ (length h ≤ combo st')%nat
              ∧ (length h ≤ achievements st')%nat)
           ∧ ((length h ≤ HeapEngine.achievementsUnlocked refs)%nat
              ∧ HeapEngine.achievementsUnlocked refs ≠ achievements st'
              ∧ achArrAt h (achievements st) = Some old
              ∧ achArrAt h' (HeapEngine.achievementsUnlocked refs) = Some new
              ∧ achArrAt h' (achievements st') = Some (old ++ new))
     end → Q res h') →
  wp (HeapEngine.processTaskCompletion dateNow taskId tasksRef stateRef ts) h Q.
Proof.
  intros Helems Htasks Hst Hs HQ.
  unfold stateAt in Hs. rewrite Hst in Hs.
  destruct (numArrAt h _) as [m|] eqn:Hm; [|done].
  destruct (comboAt h _) as [c|] eqn:Hc; [|done].
  destruct (achievementsAt h _) as [achs|] eqn:Ha; [|done].
  injection Hs as <-.
  pose proof Ha as Hold0. unfold achievementsAt in Hold0.
  destruct (achArrAt h (achievements st)) as [old|] eqn:Hold1; [|done].
  clear Hold0.
  unfold HeapEngine.processTaskCompletion.
  wp_read_with Helems.
  apply wp_bind. eapply find_wp; [exact Htasks|].
  intros [task|] Hfound; [|by apply wp_ret, HQ].
  destruct Hfound as (t & Ht & Hfind).
  wp_read_with Ht.
  destruct (GameTask.completed t) eqn:Hdone; [by apply wp_ret, HQ|].
  set (h0 := h) in HQ, Htasks, Hold1.
  assert (Hbase : h0 `prefix_of` h) by done.
  assert (Hold : achArrAt h (achievements st) = Some old) by done.
  clearbody h0.
  apply wp_bind. eapply map_refs; [exact Hbase|exact Htasks|].
  intros newElems h1 Hp HnewElems. lift_to Hp. clear h Hp.
  apply wp_bind, wp_alloc_fresh. intros newTasks h Hp FnewTasks HnewTasks.
  assert (taskArrAt h newTasks = Some newElems)
    by (unfold taskArrAt; by rewrite HnewTasks).
  assert (length h0 ≤ newTasks)%nat
    by (apply prefix_length in Hbase; lia).
  lift_to Hp. clear h1 Hp HnewTasks FnewTasks.
  wp_read_with Hst. wp_read_with Hc.
  set (now := default dateNow ts).
  set (chained := (_ <? COMBO_WINDOW_MS) && _).
  set (comboCount := if chained then _ else 1).
  set (comboMultiplier := if chained then _ else 1.0%float).
  set (finalXp := Num.floor _).
  set (overflow := totalXpNeeded st <=? _).
  apply wp_bind, wp_run. eapply calculateMomentum_wp; [exact Hm|].
  intros newMomentum h1 Hp HnewMomentum Hrun.
  apply calculateMomentum_first_cell in Hrun.
  assert (length h0 ≤ newMomentum)%nat
    by (apply prefix_length in Hbase; lia).
  lift_to Hp. clear h Hp Hrun.
  apply wp_bind, wp_alloc_fresh. intros newCombo h Hp FnewCombo HnewCombo.
  match type of HnewCombo with
  | _ = Some (ComboObj ?x) =>
      assert (comboAt h newCombo = Some x) by (unfold comboAt; by rewrite HnewCombo)
  end.
  assert (length h0 ≤ newCombo)%nat
    by (apply prefix_length in Hbase; lia).
  lift_to Hp. clear h1 Hp HnewCombo FnewCombo.
  apply wp_bind, wp_alloc. intros intermediateState h1 Hp Hist.
  match type of Hist with
  | _ = Some (StateObj ?x) =>
      assert (Hist' : stateObjAt h1 intermediateState = Some x)
        by (unfold stateObjAt; by rewrite Hist)
  end.
  lift_to Hp. clear h Hp Hist.
  apply wp_bind, wp_run. eapply checkAchievements_wp; [|exact Ht|].
  { unfold stateAt. rewrite Hist'.
    cbn [momentum combo achievements level currentXp totalXpNeeded completedTasks].
    rewrite HnewMomentum, Ha.
    match goal with F : comboAt h1 newCombo = _ |- _ => rewrite F end.
    reflexivity. }
  intros newAchievements h Hp Hnew Hrun.
  apply checkAchievements_first_cell in Hrun.
  assert (length h0 ≤ newAchievements)%nat
    by (apply prefix_length in Hbase; lia).
  lift_to Hp. clear h1 Hp Hrun.
  unfold achievementsAt in Hnew.
  destruct (achArrAt h newAchievements) as [addedElems|] eqn:Hadded; [|done].
  clear Hnew.
  wp_read_with Hold. wp_read_with Hadded.
  apply wp_bind, wp_alloc_fresh.
  intros finalAchievements h1 Hp FfinalAchievements Hfinal.
  assert (achArrAt h1 finalAchievements = Some (old ++ addedElems))
    by (unfold achArrAt; by rewrite Hfinal).
  assert (length h0 ≤ finalAchievements)%nat
    by (apply prefix_length in Hbase; lia).
  assert (newAchievements ≠ finalAchievements).
  { unfold achArrAt in Hadded.
    destruct (h !! newAchievements) eqn:E; [|done].
    apply lookup_lt_Some in E. lia. }
  lift_to Hp. clear h Hp Hfinal FfinalAchievements.
  wp_read_with Hist'.
  apply wp_bind, wp_alloc_fresh. intros finalState h Hp FfinalState HfinalState.
  match type of HfinalState with
  | _ = Some (StateObj ?x) =>
      assert (Hfs : stateObjAt h finalState = Some x)
        by (unfold stateObjAt; by rewrite HfinalState)
  end.
  assert (length h0 ≤ finalState)%nat
    by (apply prefix_length in Hbase; lia).
  lift_to Hp. clear h1 Hp HfinalState FfinalState.
  apply wp_ret, HQ; [done|].
  eexists newElems, _, old, addedElems.
  cbn [HeapEngine.newTasks HeapEngine.newState HeapEngine.achievementsUnlocked].
  split; [done|]. split.
  - split; [done|]. split; [exact Hfs|]. by cbn [momentum combo achievements].
  - by cbn [momentum combo achievements].
Qed.

End HeapLayout.

(** X18: the new task array shares the tasks the call does not complete.
    After a call with a result, the array of the result is a cell that did
    not exist before, of the length of the input array; at the position of
    a task with another id it holds the very reference the input array
    holds there, and at the position of a task with the id a reference to
    an object that did not exist before, which has [completed] true and
    every other field of the task, while the object of the input reads as
    before. *)
Theorem untouched_tasks_are_shared dateNow taskId ts h tasksRef stateRef elems
    (tasks : list GameTask.t) s :
  Heap.taskArrAt h tasksRef = Some elems →
  mapM (Heap.taskAt h) elems = Some tasks →
  Heap.stateAt h stateRef = Some s →
  ∃ res h',
    HeapEngine.processTaskCompletion dateNow taskId tasksRef stateRef ts h
    = Some (res, h')
    ∧ ∀ refs, res = Some refs →
        (length h ≤ HeapEngine.newTasks refs)%nat
        ∧ ∃ k, Heap.taskArrAt h' (HeapEngine.newTasks refs) = Some k
               ∧ length k = length elems
               ∧ ∀ i l t, elems !! i = Some l → Heap.taskAt h l = Some t →
                   if decide (GameTask.id t = taskId)
                   then ∃ l' t', k !! i = Some l'
                                 ∧ (length h ≤ l')%nat
                                 ∧ Heap.taskAt h' l' = Some t'
                                 ∧ completedCopy t t'
                                 ∧ Heap.taskAt h' l = Some t
                   else k !! i = Some l.
Proof.
  intros Helems Htasks Hs.
  assert (∃ st, Heap.stateObjAt h stateRef = Some st) as [st Hst].
  { unfold Heap.stateAt in Hs. destruct (Heap.stateObjAt h stateRef); [eauto|done]. }
  pose proof (processTaskCompletion_layout dateNow taskId ts h tasksRef stateRef
    elems tasks st s (λ res h', h `prefix_of` h' ∧ _)
    Helems Htasks Hst Hs (λ res h' Hp Hres, conj Hp Hres)) as Hwp.
  unfold Heap.wp in Hwp.
  destruct (HeapEngine.processTaskCompletion _ _ _ _ _ h) as [[res h']|]; [|done].
  destruct Hwp as [Hp Hres]. exists res, h'. split; [done|].
  intros refs ->. destruct Hres as (k & _ & _ & _ & (Hnew & Hk & Hshare) & _).
  split; [done|]. exists k. split; [done|].
  split; [symmetry; by eapply Forall3_length_lr|].
  intros i l t Hl Ht.
  destruct (Forall3_lookup_l _ _ _ _ _ _ Hshare Hl) as (t' & l' & Ht' & Hl' & HP).
  apply mapM_Some in Htasks.
  pose proof (Forall2_lookup_lr _ _ _ _ _ _ Htasks Hl Ht') as Hsame.
  cbn beta in Hsame. rewrite Ht in Hsame. injection Hsame as <-.
  unfold isTask in HP.
  destruct (String.eqb_spec (GameTask.id t) taskId); case_decide; try done;
    [|by subst].
  exists l', (GameTask.complete t).
  split; [done|]. split; [apply HP|]. split; [apply HP|].
  split; [apply completedCopy_complete|]. by eapply taskAt_mono.
Qed.

(** X19: the snapshot of a result shares no cell with what the caller
    holds, except the achievement objects.  The snapshot object, its
    momentum array, its combo object and its achievement array did not
    exist before the call, and neither did the array of the achievements
    unlocked, which is another cell than the achievement array of the
    snapshot.  The achievement array of the snapshot holds the references
    of the caller's achievement array followed by the references of the
    array of the achievements unlocked: the achievement objects are shared,
    not copied. *)
Theorem returned_snapshot_is_new dateNow taskId ts h tasksRef stateRef
    (tasks : list GameTask.t) s st :
  Heap.tasksAt h tasksRef = Some tasks →
  Heap.stateObjAt h stateRef = Some st →
  Heap.stateAt h stateRef = Some s →
  ∃ res h',
    HeapEngine.processTaskCompletion dateNow taskId tasksRef stateRef ts h
    = Some (res, h')
    ∧ ∀ refs, res = Some refs →
        ∃ st' old new,
          Heap.stateObjAt h' (HeapEngine.newState refs) = Some st'
          ∧ (length h ≤ HeapEngine.newState refs)%nat
          ∧ (length h ≤ Heap.momentum st')%nat
          ∧ (length h ≤ Heap.combo st')%nat
          ∧ (length h ≤ Heap.achievements st')%nat
          ∧ (length h ≤ HeapEngine.achievementsUnlocked refs)%nat
          ∧ HeapEngine.achievementsUnlocked refs ≠ Heap.achievements st'
          ∧ Heap.achArrAt h (Heap.achievements st) = Some old
          ∧ Heap.achArrAt h' (HeapEngine.achievementsUnlocked refs) = Some new
          ∧ Heap.achArrAt h' (Heap.achievements st') = Some (old ++ new).
Proof.
  intros Htasks Hst Hs.
  unfold Heap.tasksAt in Htasks.
  destruct (Heap.taskArrAt h tasksRef) as [elems|] eqn:Helems; [|done].
  pose proof (processTaskCompletion_layout dateNow taskId ts h tasksRef stateRef
    elems tasks st s (λ res h', h `prefix_of` h' ∧ _)
    Helems Htasks Hst Hs (λ res h' Hp Hres, conj Hp Hres)) as Hwp.
  unfold Heap.wp in Hwp.
  destruct (HeapEngine.processTaskCompletion _ _ _ _ _ h) as [[res h']|]; [|done].
  destruct Hwp as [Hp Hres]. exists res, h'. split; [done|].
  intros refs ->.
  destruct Hres as (k & st' & old & new & _ & (? & ? & ? & ? & ?)
                    & (? & ? & ? & ? & ?)).
  by exists st', old, new.
Qed.

(** X20: a call allocates exactly when it has a result.  The heap after a
    call that returns null is the heap before it, cell for cell, with no
    cell added; the heap after a call with a result is longer. *)
Theorem null_call_allocates_nothing dateNow taskId ts h tasksRef stateRef
    (tasks : list GameTask.t) s :
  Heap.tasksAt h tasksRef = Some tasks →
  Heap.stateAt h stateRef = Some s →
  ∃ res h',
    HeapEngine.processTaskCompletion dateNow taskId tasksRef stateRef ts h
    = Some (res, h')
    ∧ (res = None ↔ h' = h)
    ∧ (res ≠ None → (length h < length h')%nat).
Proof.
  intros Htasks Hs.
  unfold Heap.tasksAt in Htasks.
  destruct (Heap.taskArrAt h tasksRef) as [elems|] eqn:Helems; [|done].
  assert (∃ st, Heap.stateObjAt h stateRef = Some st) as [st Hst].
  { unfold Heap.stateAt in Hs. destruct (Heap.stateObjAt h stateRef); [eauto|done]. }
  pose proof (processTaskCompletion_layout dateNow taskId ts h tasksRef stateRef
    elems tasks st s (λ res h', h `prefix_of` h' ∧ _)
    Helems Htasks Hst Hs (λ res h' Hp Hres, conj Hp Hres)) as Hwp.
  unfold Heap.wp in Hwp.
  destruct (HeapEngine.processTaskCompletion _ _ _ _ _ h) as [[res h']|]; [|done].
  destruct Hwp as [Hp Hres]. exists res, h'. split; [done|].
  destruct res as [refs|].
  - destruct Hres as (k & _ & _ & _ & (Hnew & Hk & _) & _).
    assert (length h < length h')%nat as Hlonger.
    { unfold Heap.taskArrAt in Hk.
      destruct (h' !! HeapEngine.newTasks refs) eqn:E; [|done].
      apply lookup_lt_Some in E. lia. }
    split; [|done]. split; [done|]. intros ->. lia.
  - by subst.
Qed.

(** * Instances of the further properties *)

(** The snapshot after scenario A is reached from the initial one. *)
Lemma scenarioA_reachable r :
  scenarioA = Some r → reachable (CompletionResult.newState r).
Proof.
  intros Hr.
  eapply reach_completion with (tasks := benchTasks);
    [apply reach_initial| | |exact Hr|done].
  - apply (bool_decide_unpack _). by vm_compute.
  - repeat constructor.
Qed.

Lemma no_achievement_missed_witness :
  ∃ r, scenarioA = Some r
    ∧ "FIRST_BLOOD"
      ∈ Achievement.id <$> GameState.achievements (CompletionResult.newState r).
Proof.
  destruct scenarioA as [r|] eqn:Hr; [|by vm_compute in Hr].
  exists r. split; [reflexivity|].
  exact (proj1 (no_achievement_missed 0 "t1" benchTasks createInitialState
                  (Some 1000) r Hr) eq_refl).
Defined.


Lemma first_blood_marks_first_completion_witness :
  ∃ r, scenarioA = Some r
    ∧ ("FIRST_BLOOD"
       ∈ Achievement.id <$> GameState.achievements (CompletionResult.newState r)
       ↔ 0 < GameState.completedTasks (CompletionResult.newState r)).
Proof.
  destruct scenarioA as [r|] eqn:Hr; [|by vm_compute in Hr].
  exists r. split; [reflexivity|].
  exact (proj1 (first_blood_marks_first_completion _ (scenarioA_reachable r Hr))).
Defined.

Lemma veteran_marks_level_three_witness :
  ∃ r, scenarioA = Some r
    ∧ ("VETERAN"
       ∈ Achievement.id <$> GameState.achievements (CompletionResult.newState r)
       ↔ 3 ≤ GameState.level (CompletionResult.newState r)).
Proof.
  destruct scenarioA as [r|] eqn:Hr; [|by vm_compute in Hr].
  exists r. split; [reflexivity|].
  exact (veteran_marks_level_three _ (scenarioA_reachable r Hr)).
Defined.

Lemma reachable_achievements_witness :
  ∃ r, scenarioA = Some r
    ∧ NoDup (Achievement.id
               <$> GameState.achievements (CompletionResult.newState r)).
Proof.
  destruct scenarioA as [r|] eqn:Hr; [|by vm_compute in Hr].
  exists r. split; [reflexivity|].
  exact (proj1 (proj2 (reachable_achievements _ (scenarioA_reachable r Hr)))).
Defined.

Lemma reachable_momentum_length_witness :
  ∃ r, scenarioA = Some r
    ∧ Z.of_nat (length (GameState.momentum (CompletionResult.newState r)))
      = Z.min 20 (5 + GameState.completedTasks (CompletionResult.newState r)).
Proof.
  destruct scenarioA as [r|] eqn:Hr; [|by vm_compute in Hr].
  exists r. split; [reflexivity|].
  exact (reachable_momentum_length _ (scenarioA_reachable r Hr)).
Defined.

Lemma task_list_after_completion_witness :
  ∃ r, scenarioA = Some r
    ∧ GameTask.id <$> CompletionResult.newTasks r = GameTask.id <$> benchTasks.
Proof.
  destruct scenarioA as [r|] eqn:Hr; [|by vm_compute in Hr].
  exists r. split; [reflexivity|].
  exact (proj1 (task_list_after_completion 0 "t1" benchTasks createInitialState
                  (Some 1000) r Hr)).
Defined.


Lemma threshold_follows_level_witness :
  ∃ r, scenarioA = Some r ∧ 1 ≤ GameState.level (CompletionResult.newState r).
Proof.
  destruct scenarioA as [r|] eqn:Hr; [|by vm_compute in Hr].
  exists r. split; [reflexivity|].
  exact (proj1 (threshold_follows_level _ (scenarioA_reachable r Hr))).
Defined.

Lemma multiplier_follows_count_witness :
  ∃ r, scenarioA = Some r
    ∧ (0 < Combo.lastCompletionTime (GameState.combo (CompletionResult.newState r))
       → 1 ≤ Combo.count (GameState.combo (CompletionResult.newState r))).
Proof.
  destruct scenarioA as [r|] eqn:Hr; [|by vm_compute in Hr].
  exists r. split; [reflexivity|].
  exact (proj2 (multiplier_follows_count _ (scenarioA_reachable r Hr))).
Defined.


Lemma hook_completes_a_task_once_witness :
  ∃ h b, completeTask 1000 logStamp "t1" (render benchHook) benchHook = (h, b)
    ∧ b = true
    ∧ completeTask 2000 logStamp "t1" (render h) h = (h, false)
    ∧ (completeTask 2000 logStamp "t1" (render benchHook) h).2 = true.
Proof.
  destruct (completeTask 1000 logStamp "t1" (render benchHook) benchHook)
    as [h b] eqn:Hrun.
  exists h, b. split; [reflexivity|].
  assert (b = true ∧ ∃ t, find (isTask "t1") (tasks h) = Some t
                         ∧ GameTask.completed t = true) as [Hb Hdone].
  { vm_compute in Hrun. injection Hrun as <- <-. split; [reflexivity|].
    eexists. split; reflexivity. }
  split; [exact Hb|]. split.
  - exact (proj1 (proj2 (proj2 (hook_completes_a_task_once 1000 logStamp "t1"
                                  (render h) h)))
             [] 2000 logStamp Hdone).
  - pose proof (proj2 (proj2 (proj2 (hook_completes_a_task_once 1000 logStamp
                                       "t1" (render benchHook) benchHook)))
                  2000 logStamp) as Htwice.
    rewrite Hrun in Htwice. exact (Htwice Hb).
Defined.

Lemma hook_announces_completion_witness :
  ∃ r, processTaskCompletion 1000 "t1" benchTasks createInitialState None
       = Some r
    ∧ ∃ combo,
        events (completeTask 1000 logStamp "t1" (render benchHook) benchHook).1
        = [COMPLETE "t1" 100 combo; ACHIEVEMENT (FIRST_BLOOD 1000)].
Proof.
  destruct (processTaskCompletion 1000 "t1" benchTasks createInitialState None)
    as [r|] eqn:Hr; [|by vm_compute in Hr].
  exists r. split; [reflexivity|].
  destruct (hook_announces_completion 1000 logStamp "t1" (render benchHook)
              benchHook r Hr) as (combo & newLogs & Hev & _).
  exists combo. rewrite Hev.
  vm_compute in Hr. injection Hr as <-. reflexivity.
Defined.


Lemma untouched_tasks_are_shared_witness :
  Heap.taskArrAt benchHeap 2 = Some [0; 1]%nat
  ∧ ∃ refs h' k l' t',
      HeapEngine.processTaskCompletion 0 "t4" 2 6 (Some 1000) benchHeap
      = Some (Some refs, h')
      ∧ Heap.taskArrAt h' (HeapEngine.newTasks refs) = Some k
      ∧ k !! 0%nat = Some 0%nat
      ∧ k !! 1%nat = Some l'
      ∧ (length benchHeap ≤ l')%nat
      ∧ Heap.taskAt h' l' = Some t'
      ∧ GameTask.completed t' = true.
Proof.
  split; [reflexivity|].
  destruct (untouched_tasks_are_shared 0 "t4" (Some 1000) benchHeap 2%nat 6%nat
              [0; 1]%nat
              [createDummyTask "t1" Rank_B 100; createDummyTask "t4" Rank_S 500]
              createInitialState eq_refl eq_refl eq_refl)
    as (res & h' & Hrun & Hres).
  destruct res as [refs|]; [|by vm_compute in Hrun].
  destruct (Hres refs eq_refl) as (_ & k & Hk & _ & Hshare).
  destruct (Hshare 1%nat 1%nat (createDummyTask "t4" Rank_S 500) eq_refl eq_refl)
    as (l' & t' & Hl' & Hfresh & Ht' & Hcopy & _).
  exists refs, h', k, l', t'. split; [exact Hrun|]. split; [exact Hk|].
  split; [exact (Hshare 0%nat 0%nat (createDummyTask "t1" Rank_B 100)
                   eq_refl eq_refl)|].
  split; [exact Hl'|]. split; [exact Hfresh|]. split; [exact Ht'|].
  exact (proj2 (proj2 (proj2 (proj2 (proj2 (proj2 Hcopy)))))).
Defined.

Lemma returned_snapshot_is_new_witness :
  Heap.stateAt benchHeap 6 = Some createInitialState
  ∧ ∃ refs h' st',
      HeapEngine.processTaskCompletion 0 "t4" 2 6 (Some 1000) benchHeap
      = Some (Some refs, h')
      ∧ Heap.stateObjAt h' (HeapEngine.newState refs) = Some st'
      ∧ (length benchHeap ≤ Heap.momentum st')%nat.
Proof.
  split; [reflexivity|].
  destruct (returned_snapshot_is_new 0 "t4" (Some 1000) benchHeap 2%nat 6%nat
              [createDummyTask "t1" Rank_B 100; createDummyTask "t4" Rank_S 500]
              createInitialState
              {| Heap.level := 1; Heap.currentXp := 0;
                 Heap.totalXpNeeded := 1000; Heap.completedTasks := 0;
                 Heap.momentum := 3%nat; Heap.combo := 4%nat;
                 Heap.achievements := 5%nat |}
              eq_refl eq_refl eq_refl)
    as (res & h' & Hrun & Hres).
  destruct res as [refs|]; [|by vm_compute in Hrun].
  destruct (Hres refs eq_refl) as (st' & _ & _ & Hst' & _ & Hm & _).
  exists refs, h', st'. split; [exact Hrun|]. split; [exact Hst'|exact Hm].
Defined.

Lemma null_call_allocates_nothing_witness :
  Heap.stateAt benchHeap 6 = Some createInitialState
  ∧ HeapEngine.processTaskCompletion 0 "t9" 2 6 (Some 1000) benchHeap
    = Some (None, benchHeap).
Proof.
  split; [reflexivity|].
  destruct (null_call_allocates_nothing 0 "t9" (Some 1000) benchHeap 2%nat 6%nat
              [createDummyTask "t1" Rank_B 100; createDummyTask "t4" Rank_S 500]
              createInitialState eq_refl eq_refl)
    as (res & h' & Hrun & Hnull & _).
  destruct res as [refs|]; [by vm_compute in Hrun|].
  rewrite Hrun. by rewrite (proj1 Hnull eq_refl).
Defined.

Lemma sums_are_binary64_witness :
  ∃ r, scenarioA = Some r
    ∧ Binary64.processTaskCompletion 0 "t1" benchTasks createInitialState
        (Some 1000) = Some r.
Proof.
  destruct scenarioA as [r|] eqn:Hr; [|by vm_compute in Hr].
  exists r. split; [reflexivity|].
  apply (proj2 (sums_are_binary64 0 "t1" benchTasks createInitialState
                  (Some 1000)) r Hr).
  vm_compute in Hr. injection Hr as <-. by vm_compute.
Defined.
